(** * orbis-landing: the demo-request flow, the toast and the scroll tracker

  A shallow embedding of the behavioural parts of [src/App.tsx]:
  [useOnScreen], [Toast], [DemoModal] (with [validateEmail], [sendEmail],
  [handleChange], [handleSubmit]) and the state that [App] owns.

  Conventions.
  - A JavaScript string is a sequence of code units; the embedding uses
    [string], one [ascii] per code unit, which covers the code units
    U+0000..U+00FF.  Every literal of the source is in that range.
  - Time is counted in whole milliseconds ([N]).
  - An event handler runs to completion before the next event is
    dispatched; an [await] on a timer splits a handler in two. *)

From Stdlib Require Import Bool List Arith NArith ZArith QArith Lia.
From Stdlib Require Import Ascii String.
Import ListNotations.

Local Close Scope Q_scope.
Local Open Scope string_scope.
Local Open Scope list_scope.

(* ================================================================== *)
(** ** Strings *)

Module Str.

(** [s.startsWith(p)] at position 0. *)
Fixpoint startsWith (s p : string) {struct p} : bool :=
  match p, s with
  | EmptyString, _ => true
  | String a p', String b s' => Ascii.eqb a b && startsWith s' p'
  | String _ _, EmptyString => false
  end.

(** [s.includes(p)]: [p] occurs in [s] as a contiguous run of code units. *)
Fixpoint includes (s p : string) : bool :=
  startsWith s p ||
  match s with
  | EmptyString => false
  | String _ s' => includes s' p
  end.

(** The declarative reading of "contains the substring". *)
Definition Substring (p s : string) : Prop :=
  exists pre post, s = (pre ++ p ++ post)%string.

(** [!s] for a string: only the empty string is falsy. *)
Definition falsy (s : string) : bool :=
  match s with EmptyString => true | String _ _ => false end.

(** Code unit of a character. *)
Definition code (c : ascii) : N := N_of_ascii c.

Definition between (lo hi : N) (c : ascii) : bool :=
  (lo <=? code c)%N && (code c <=? hi)%N.

(** [toLowerCase] on one code unit of the range U+0000..U+00FF:
    A-Z, and the Latin-1 capitals U+00C0..U+00DE without U+00D7. *)
Definition lower_char (c : ascii) : ascii :=
  if between 65 90 c then ascii_of_N (code c + 32)
  else if between 192 222 c && negb (code c =? 215)%N
       then ascii_of_N (code c + 32)
       else c.

Fixpoint toLowerCase (s : string) : string :=
  match s with
  | EmptyString => EmptyString
  | String c s' => String (lower_char c) (toLowerCase s')
  end.

End Str.

(* ================================================================== *)
(** ** Regular expressions, as far as [validateEmail] uses them *)

Module Re.

(** One member of a bracketed character class. *)
Inductive item : Type :=
| One (c : ascii)            (* a literal character *)
| Range (lo hi : ascii)      (* lo-hi *)
| Space.                     (* \s *)

(** Patterns.  [Void] matches nothing; it only appears in derivatives. *)
Inductive t : Type :=
| Void
| Eps
| Lit (c : ascii)
| Dot                        (* . *)
| OneOf (cls : list item)    (* [...] *)
| NoneOf (cls : list item)   (* [^...] *)
| Seq (a b : t)
| Alt (a b : t)
| Star (a : t).

(** [\s] on U+0000..U+00FF: TAB, LF, VT, FF, CR, SP and NBSP. *)
Definition is_space (c : ascii) : bool :=
  Str.between 9 13 c || (Str.code c =? 32)%N || (Str.code c =? 160)%N.

(** [.] excludes the line terminators LF and CR. *)
Definition is_line_terminator (c : ascii) : bool :=
  (Str.code c =? 10)%N || (Str.code c =? 13)%N.

Definition item_has (i : item) (c : ascii) : bool :=
  match i with
  | One d => Ascii.eqb d c
  | Range lo hi => Str.between (Str.code lo) (Str.code hi) c
  | Space => is_space c
  end.

Definition class_has (cls : list item) (c : ascii) : bool :=
  existsb (fun i => item_has i c) cls.

(** Derived quantifiers: [r+], [r{n}], [r{n,}], [r{n,m}]. *)
Definition plus (r : t) : t := Seq r (Star r).

Fixpoint times (n : nat) (r : t) : t :=
  match n with
  | O => Eps
  | S n' => Seq r (times n' r)
  end.

Fixpoint upto (n : nat) (r : t) : t :=
  match n with
  | O => Eps
  | S n' => Alt Eps (Seq r (upto n' r))
  end.

Definition at_least (n : nat) (r : t) : t := Seq (times n r) (Star r).

Definition from_to (n m : nat) (r : t) : t := Seq (times n r) (upto (m - n) r).

Fixpoint nullable (r : t) : bool :=
  match r with
  | Void | Lit _ | Dot | OneOf _ | NoneOf _ => false
  | Eps | Star _ => true
  | Seq a b => nullable a && nullable b
  | Alt a b => nullable a || nullable b
  end.

(** Derivative of a pattern by one character. *)
Fixpoint deriv (c : ascii) (r : t) : t :=
  match r with
  | Void | Eps => Void
  | Lit d => if Ascii.eqb d c then Eps else Void
  | Dot => if is_line_terminator c then Void else Eps
  | OneOf cls => if class_has cls c then Eps else Void
  | NoneOf cls => if class_has cls c then Void else Eps
  | Seq a b =>
      if nullable a then Alt (Seq (deriv c a) b) (deriv c b)
      else Seq (deriv c a) b
  | Alt a b => Alt (deriv c a) (deriv c b)
  | Star a => Seq (deriv c a) (Star a)
  end.

(** [/^r$/.test(s)]: the whole of [s] matches [r]. *)
Fixpoint test (r : t) (s : string) : bool :=
  match s with
  | EmptyString => nullable r
  | String c s' => test (deriv c r) s'
  end.

(** The language of a pattern. *)
Inductive Matches : t -> string -> Prop :=
| MEps : Matches Eps ""
| MLit c : Matches (Lit c) (String c "")
| MDot c : is_line_terminator c = false -> Matches Dot (String c "")
| MOneOf cls c : class_has cls c = true -> Matches (OneOf cls) (String c "")
| MNoneOf cls c : class_has cls c = false -> Matches (NoneOf cls) (String c "")
| MSeq a b u v : Matches a u -> Matches b v -> Matches (Seq a b) (u ++ v)%string
| MAltL a b u : Matches a u -> Matches (Alt a b) u
| MAltR a b u : Matches b u -> Matches (Alt a b) u
| MStar0 a : Matches (Star a) ""
| MStarS a u v : Matches a u -> Matches (Star a) v -> Matches (Star a) (u ++ v)%string.

End Re.

(* ================================================================== *)
(** ** DemoModal: form data, validation and the mock delivery *)

(** [useState({ name: '', email: '', organization: '', message: '' })] *)
Record FormData : Type := mkFormData {
  name : string;
  email : string;
  organization : string;
  message : string
}.

Definition emptyForm : FormData := mkFormData "" "" "" "".

Inductive ToastType : Type := success | error.

Module Email.

Definition dquote : ascii := "034"%char.

(** The negated class of the local part: none of [<>()[]\.,;:@], of
    the double quote and of [\s]. *)
Definition atom_char : Re.t :=
  Re.NoneOf [Re.One "<"; Re.One ">"; Re.One "("; Re.One ")"; Re.One "[";
             Re.One "]"; Re.One "\"; Re.One "."; Re.One ","; Re.One ";";
             Re.One ":"; Re.Space; Re.One "@"; Re.One dquote]%char.

(** [[0-9]], [[a-zA-Z\-0-9]] and [[a-zA-Z]] *)
Definition digit : Re.t := Re.OneOf [Re.Range "0" "9"]%char.
Definition label_char : Re.t :=
  Re.OneOf [Re.Range "a" "z"; Re.Range "A" "Z"; Re.One "-"; Re.Range "0" "9"]%char.
Definition alpha : Re.t := Re.OneOf [Re.Range "a" "z"; Re.Range "A" "Z"]%char.

(** One or more class characters, then any number of groups made of a
    dot and one or more class characters. *)
Definition dot_atom : Re.t :=
  Re.Seq (Re.plus atom_char)
         (Re.Star (Re.Seq (Re.Lit ".") (Re.plus atom_char))).

(** A double quote, [.+], a double quote. *)
Definition quoted : Re.t :=
  Re.Seq (Re.Lit dquote) (Re.Seq (Re.plus Re.Dot) (Re.Lit dquote)).

Definition local_part : Re.t := Re.Alt dot_atom quoted.

(** [(\[[0-9]{1,3}\.[0-9]{1,3}\.[0-9]{1,3}\.[0-9]{1,3}\])] *)
Definition octet : Re.t := Re.from_to 1 3 digit.
Definition ip_literal : Re.t :=
  Re.Seq (Re.Lit "[")
    (Re.Seq octet (Re.Seq (Re.Lit ".")
    (Re.Seq octet (Re.Seq (Re.Lit ".")
    (Re.Seq octet (Re.Seq (Re.Lit ".")
    (Re.Seq octet (Re.Lit "]")))))))).

(** [(([a-zA-Z\-0-9]+\.)+[a-zA-Z]{2,})] *)
Definition hostname : Re.t :=
  Re.Seq (Re.plus (Re.Seq (Re.plus label_char) (Re.Lit ".")))
         (Re.at_least 2 alpha).

Definition domain : Re.t := Re.Alt ip_literal hostname.

(** The pattern [re] of [validateEmail], between its [^] and [$]. *)
Definition re : Re.t := Re.Seq local_part (Re.Seq (Re.Lit "@") domain).

End Email.

(** [validateEmail]: [re.test(String(email).toLowerCase())]. *)
Definition validateEmail (email : string) : bool :=
  Re.test Email.re (Str.toLowerCase email).

(** The object a delivery resolves to: [{ success, message }]. *)
Record SendResult : Type := mkSendResult {
  res_success : bool;
  res_message : string
}.

(** The names of the four inputs, as [e.target.name] carries them. *)
Inductive Field : Type := FName | FEmail | FOrganization | FMessage.

(** [{ ...formData, [e.target.name]: e.target.value }] *)
Definition setField (formData : FormData) (f : Field) (value : string) : FormData :=
  match f with
  | FName => mkFormData value (email formData) (organization formData) (message formData)
  | FEmail => mkFormData (name formData) value (organization formData) (message formData)
  | FOrganization => mkFormData (name formData) (email formData) value (message formData)
  | FMessage => mkFormData (name formData) (email formData) (organization formData) value
  end.

(* ================================================================== *)
(** ** Handlers as effect lists

    What a handler of [DemoModal] does to the outside is a sequence of
    calls: state setters, the two props [showToast] and [onClose], the
    console, and one suspension on a timer.  None of them returns a value
    to the handler, so a handler is a writer over that sequence. *)

Module Handler.

Inductive Effect : Type :=
| PreventDefault                              (* e.preventDefault() *)
| SetFormData (formData : FormData)           (* setFormData(...) *)
| SetIsSending (b : bool)                     (* setIsSending(b) *)
| ShowToast (ty : ToastType) (msg : string)   (* showToast(type, message) *)
| OnClose                                     (* onClose() *)
| ConsoleLog (data : FormData)                (* console.log(..., data) *)
| Delay (ms : N).                             (* await new Promise(r => setTimeout(r, ms)) *)

Definition M (A : Type) : Type := (list Effect * A)%type.

Definition ret {A : Type} (a : A) : M A := ([], a).

Definition bind {A B : Type} (m : M A) (k : A -> M B) : M B :=
  let (es, a) := m in
  let (es', b) := k a in
  ((es ++ es')%list, b).

Definition emit (e : Effect) : M unit := ([e], tt).

Definition effects {A : Type} (m : M A) : list Effect := fst m.
Definition value {A : Type} (m : M A) : A := snd m.

End Handler.

Import Handler.

Declare Scope handler_scope.
Delimit Scope handler_scope with handler.
Notation "x <- m ;; k" := (bind m (fun x => k))
  (at level 61, m at next level, right associativity) : handler_scope.
Notation "m ;; k" := (bind m (fun _ => k))
  (at level 61, right associativity) : handler_scope.
Local Open Scope handler_scope.

(** [handleChange] *)
Definition handleChange (formData : FormData) (f : Field) (value : string) : M unit :=
  emit (SetFormData (setField formData f value)).

(** [sendEmail]: the mock API call. *)
Definition sendEmail (data : FormData) : M SendResult :=
  emit (ConsoleLog data) ;;
  emit (Delay 1500) ;;
  if Str.includes (email data) "fail"
  then ret (mkSendResult false "Failed to send. Please try again.")
  else ret (mkSendResult true "Successful, we'll get back to you soon!").

(** The two notifications of a rejected submission. *)
Definition missing_fields_toast : Effect :=
  ShowToast error "Please fill in all required fields.".
Definition invalid_email_toast : Effect :=
  ShowToast error "Please enter a valid email address.".

(** [handleSubmit], with the [formData] of the render it belongs to. *)
Definition handleSubmit (formData : FormData) : M unit :=
  emit PreventDefault ;;
  if Str.falsy (name formData) || Str.falsy (email formData)
     || Str.falsy (organization formData)
  then emit (ShowToast error "Please fill in all required fields.")
  else if negb (validateEmail (email formData))
  then emit (ShowToast error "Please enter a valid email address.")
  else
    emit (SetIsSending true) ;;
    result <- sendEmail formData ;;
    emit (SetIsSending false) ;;
    if res_success result
    then emit (ShowToast success (res_message result)) ;; emit OnClose
    else emit (ShowToast error (res_message result)).

(** How often a handler invokes the delivery operation: [sendEmail]
    writes one console line per call, before anything else. *)
Definition is_send (e : Effect) : bool :=
  match e with ConsoleLog _ => true | _ => false end.

Definition is_toast (e : Effect) : bool :=
  match e with ShowToast _ _ => true | _ => false end.

Definition is_close (e : Effect) : bool :=
  match e with OnClose => true | _ => false end.

Definition count (p : Effect -> bool) (es : list Effect) : nat :=
  List.length (filter p es).

(* ================================================================== *)
(** ** App: the page shell, its two pieces of state, and the timers

    A state setter of App that changes the state renders App at once.
    React may fold the setters of one task into a single render; the
    state reached is the same, since a render of App only replaces the
    timer of the toast by one that is due at the same time.

    The browser's own checks of the [required] and [type=email] inputs
    are not part of the model: a click on the enabled submit button always
    reaches [handleSubmit]. *)

(** [useState<{ message; type } | null>(null)] holds one of these. *)
Record ToastState : Type := mkToast {
  toast_message : string;
  toast_type : ToastType
}.

(** What a pending [setTimeout] will run. *)
Inductive Task : Type :=
| AutoClose                               (* Toast: () => { onClose(); } *)
| Resume (inst : nat) (k : list Effect).  (* rest of a handler of the
                                             DemoModal instance [inst] *)

Record Timer : Type := mkTimer {
  timer_id : nat;
  due : N;
  task : Task
}.

(** The state of one mounted [DemoModal]. *)
Record Modal : Type := mkModal {
  instance : nat;
  formData : FormData;
  isSending : bool
}.

Record World : Type := mkWorld {
  now : N;                        (* the clock, in ms *)
  isModalOpen : bool;             (* App state *)
  toast : option ToastState;      (* App state *)
  modal : option Modal;           (* the mounted DemoModal, if any *)
  toastTimer : option nat;        (* [timer] of the mounted Toast's effect *)
  timers : list Timer;            (* pending timeouts *)
  nextTimer : nat;
  nextInstance : nat;
  trace : list (N * Effect)       (* every effect run so far, with its time *)
}.

Definition initial : World :=
  mkWorld 0 false None None None [] 0 0 [].

Definition with_now (v : N) (w : World) : World :=
  mkWorld v (isModalOpen w) (toast w) (modal w) (toastTimer w) (timers w)
          (nextTimer w) (nextInstance w) (trace w).
Definition with_isModalOpen (v : bool) (w : World) : World :=
  mkWorld (now w) v (toast w) (modal w) (toastTimer w) (timers w)
          (nextTimer w) (nextInstance w) (trace w).
Definition with_toast (v : option ToastState) (w : World) : World :=
  mkWorld (now w) (isModalOpen w) v (modal w) (toastTimer w) (timers w)
          (nextTimer w) (nextInstance w) (trace w).
Definition with_modal (v : option Modal) (w : World) : World :=
  mkWorld (now w) (isModalOpen w) (toast w) v (toastTimer w) (timers w)
          (nextTimer w) (nextInstance w) (trace w).
Definition with_toastTimer (v : option nat) (w : World) : World :=
  mkWorld (now w) (isModalOpen w) (toast w) (modal w) v (timers w)
          (nextTimer w) (nextInstance w) (trace w).
Definition with_timers (v : list Timer) (w : World) : World :=
  mkWorld (now w) (isModalOpen w) (toast w) (modal w) (toastTimer w) v
          (nextTimer w) (nextInstance w) (trace w).
Definition with_nextTimer (v : nat) (w : World) : World :=
  mkWorld (now w) (isModalOpen w) (toast w) (modal w) (toastTimer w) (timers w)
          v (nextInstance w) (trace w).
Definition with_nextInstance (v : nat) (w : World) : World :=
  mkWorld (now w) (isModalOpen w) (toast w) (modal w) (toastTimer w) (timers w)
          (nextTimer w) v (trace w).
Definition with_trace (v : list (N * Effect)) (w : World) : World :=
  mkWorld (now w) (isModalOpen w) (toast w) (modal w) (toastTimer w) (timers w)
          (nextTimer w) (nextInstance w) v.

(** [setTimeout(task, ms)] returns the new timer's id. *)
Definition setTimeout (tk : Task) (ms : N) (w : World) : nat * World :=
  (nextTimer w,
   with_nextTimer (S (nextTimer w))
     (with_timers (timers w ++ [mkTimer (nextTimer w) (now w + ms) tk]) w)).

(** [clearTimeout(id)]; an id that is not pending is ignored. *)
Definition clearTimeout (id : nat) (w : World) : World :=
  with_timers (filter (fun t => negb (timer_id t =? id)%nat) (timers w)) w.

(** [{isModalOpen && <DemoModal ... />}]: a DemoModal is mounted with
    fresh state when the flag turns true and dropped when it turns false. *)
Definition render_DemoModal (w : World) : World :=
  match isModalOpen w, modal w with
  | true, None =>
      with_nextInstance (S (nextInstance w))
        (with_modal (Some (mkModal (nextInstance w) emptyForm false)) w)
  | false, Some _ => with_modal None w
  | _, _ => w
  end.

(** [{toast && <Toast ... onClose={() => setToast(null)} />}].
    The effect of Toast depends on [[onClose]], and App passes a new
    closure at each of its renders: each render of App runs the cleanup
    of the previous effect ([clearTimeout(timer)]) and, while a toast is
    there, the effect again ([setTimeout(..., 5000)]).  When the toast is
    gone the component unmounts, which runs the cleanup only. *)
Definition render_Toast (w : World) : World :=
  let w1 := match toastTimer w with
            | Some id => with_toastTimer None (clearTimeout id w)
            | None => w
            end in
  match toast w1 with
  | Some _ =>
      let (id, w2) := setTimeout AutoClose 5000 w1 in
      with_toastTimer (Some id) w2
  | None => w1
  end.

(** One render of App. *)
Definition render (w : World) : World := render_Toast (render_DemoModal w).

(** [setToast(v)]: an object is always a new state; [null] over [null]
    is the same state and renders nothing. *)
Definition setToast (v : option ToastState) (w : World) : World :=
  match v, toast w with
  | None, None => w
  | _, _ => render (with_toast v w)
  end.

(** [setIsModalOpen(b)] *)
Definition setIsModalOpen (b : bool) (w : World) : World :=
  if Bool.eqb (isModalOpen w) b then w else render (with_isModalOpen b w).

(** A state setter of the DemoModal instance [inst]; it does nothing
    once that instance is unmounted. *)
Definition update_modal (inst : nat) (f : Modal -> Modal) (w : World) : World :=
  match modal w with
  | Some m => if (instance m =? inst)%nat then with_modal (Some (f m)) w else w
  | None => w
  end.

(** One effect of a handler that belongs to instance [inst].
    [showToast] is App's [(type, message) => setToast({ message, type })],
    [onClose] is App's [() => setIsModalOpen(false)]. *)
Definition exec (inst : nat) (e : Effect) (w : World) : World :=
  match e with
  | PreventDefault => w
  | SetFormData fd => update_modal inst (fun m => mkModal (instance m) fd (isSending m)) w
  | SetIsSending b => update_modal inst (fun m => mkModal (instance m) (formData m) b) w
  | ShowToast ty msg => setToast (Some (mkToast msg ty)) w
  | OnClose => setIsModalOpen false w
  | ConsoleLog _ => w
  | Delay _ => w
  end.

Definition record (e : Effect) (w : World) : World :=
  with_trace (trace w ++ [(now w, e)]) w.

(** Runs a handler up to its next suspension; the rest is parked on a
    timer. *)
Fixpoint run_prog (inst : nat) (k : list Effect) (w : World) : World :=
  match k with
  | [] => w
  | Delay ms :: k' => snd (setTimeout (Resume inst k') ms (record (Delay ms) w))
  | e :: k' => run_prog inst k' (exec inst e (record e w))
  end.

(** Timers fire in the order of their due time, then of their creation. *)
Definition earlier (a b : Timer) : bool :=
  (due a <? due b)%N || ((due a =? due b)%N && (timer_id a <=? timer_id b)%nat).

Fixpoint next_due (target : N) (ts : list Timer) : option Timer :=
  match ts with
  | [] => None
  | t :: ts' =>
      match next_due target ts' with
      | Some u => if (due t <=? target)%N && earlier t u then Some t else Some u
      | None => if (due t <=? target)%N then Some t else None
      end
  end.

(** A timer fires: it leaves the table, the clock is at its due time,
    its task runs. *)
Definition fire (t : Timer) (w : World) : World :=
  let w1 := with_now (N.max (now w) (due t)) (clearTimeout (timer_id t) w) in
  match task t with
  | AutoClose => setToast None w1
  | Resume inst k => run_prog inst k w1
  end.

(** A bound on the number of firings still to come. *)
Definition weight (t : Timer) : nat :=
  match task t with
  | AutoClose => 1
  | Resume _ k => 2 * List.length k + 2
  end.

Definition pending_weight (w : World) : nat :=
  list_sum (map weight (timers w)).

Fixpoint run_timers (fuel : nat) (target : N) (w : World) : World :=
  match next_due target (timers w) with
  | None => with_now (N.max (now w) target) w
  | Some t =>
      match fuel with
      | O => w
      | S fuel' => run_timers fuel' target (fire t w)
      end
  end.

(** The form's [onSubmit={handleSubmit}]. *)
Definition form_onSubmit (w : World) : World :=
  match modal w with
  | Some m => run_prog (instance m) (effects (handleSubmit (formData m))) w
  | None => w
  end.

(** What the user and the clock can do. *)
Inductive Event : Type :=
| BookDemoClick                       (* onBookDemoClick *)
| DialogClose                         (* the backdrop or the x button *)
| Input (f : Field) (value : string)  (* typing into an input *)
| SubmitClick                         (* the submit button *)
| Wait (ms : N).                      (* ms milliseconds pass *)

Definition step (ev : Event) (w : World) : World :=
  match ev with
  | BookDemoClick => setIsModalOpen true w
  | DialogClose =>
      match modal w with
      | Some m => run_prog (instance m) [OnClose] w
      | None => w
      end
  | Input f value =>
      match modal w with
      | Some m => run_prog (instance m) (effects (handleChange (formData m) f value)) w
      | None => w
      end
  | SubmitClick =>
      (* <button type=submit disabled={isSending}> *)
      match modal w with
      | Some m => if isSending m then w else form_onSubmit w
      | None => w
      end
  | Wait ms => run_timers (pending_weight w) (now w + ms) w
  end.

Definition run (evs : list Event) (w : World) : World :=
  fold_left (fun w ev => step ev w) evs w.

(** The dialog opened at time [t0] and filled in with [fd]. *)
Definition editing (t0 : N) (fd : FormData) : World :=
  run [Wait t0; BookDemoClick; Input FName (name fd); Input FEmail (email fd);
       Input FOrganization (organization fd); Input FMessage (message fd)]
      initial.

(** The effects run so far, without their times. *)
Definition effects_of (w : World) : list Effect := map snd (trace w).

(** Invocations of [sendEmail] so far. *)
Definition deliveries (w : World) : nat := count is_send (effects_of w).

(** The effects that [w] ran after [w0]. *)
Definition effects_since (w0 w : World) : list Effect :=
  skipn (List.length (trace w0)) (effects_of w).

(** The same world, [d] milliseconds later on the clock. *)
Definition shift_timer (d : N) (t : Timer) : Timer :=
  mkTimer (timer_id t) (due t + d) (task t).

Definition shift_entry (d : N) (x : N * Effect) : N * Effect :=
  ((fst x + d)%N, snd x).

Definition shift (d : N) (w : World) : World :=
  mkWorld (now w + d) (isModalOpen w) (toast w) (modal w) (toastTimer w)
          (map (shift_timer d) (timers w)) (nextTimer w) (nextInstance w)
          (map (shift_entry d) (trace w)).

(** A user who does nothing but click the submit button while time
    passes, and the time that passes. *)
Definition click_or_wait (ev : Event) : bool :=
  match ev with
  | SubmitClick | Wait _ => true
  | _ => false
  end.

Fixpoint waited (evs : list Event) : N :=
  match evs with
  | [] => 0
  | Wait ms :: evs' => ms + waited evs'
  | _ :: evs' => waited evs'
  end.

(** No parked continuation still has a call of [sendEmail] ahead. *)
Definition parks_no_send (t : Timer) : Prop :=
  match task t with
  | AutoClose => True
  | Resume _ k => count is_send k = 0
  end.

Definition no_send_pending (w : World) : Prop :=
  Forall parks_no_send (timers w).

(** [w'] continues [w] without a new invocation of [sendEmail]. *)
Definition no_new_delivery (w w' : World) : Prop :=
  exists es, trace w' = trace w ++ es /\ count is_send (map snd es) = 0.

(** No timer is due at or before [target]. *)
Definition settled (target : N) (w : World) : Prop :=
  Forall (fun t => (target < due t)%N) (timers w).

(* ================================================================== *)
(** ** useOnScreen: the visibility tracker *)

Module Tracker.

(** The one field of an [IntersectionObserverEntry] that the callback
    reads. *)
Record Entry : Type := mkEntry { entry_isIntersecting : bool }.

(** The hook's state and the observer it created.  Thresholds and visible
    fractions are compared exactly, so they are rationals here. *)
Record State : Type := mkState {
  isIntersecting : bool;      (* useState(false) *)
  observing : bool;           (* the observer still watches ref.current *)
  previous : option bool;     (* the observer's last verdict on the target *)
  callbacks : nat             (* how often the callback has run *)
}.

(** The hook after its effect has run: [observer.observe(currentRef)]
    happens only when [ref.current] is set ([ref_current = true]). *)
Definition mount (ref_current : bool) : State :=
  mkState false ref_current None 0.

(** The callback [([entry]) => { ... }] given to the observer. *)
Definition callback (ref_current : bool) (entry : Entry) (st : State) : State :=
  let st1 := mkState (isIntersecting st) (observing st) (previous st)
                     (S (callbacks st)) in
  if entry_isIntersecting entry then
    (* setIntersecting(true); if (ref.current) observer.unobserve(ref.current) *)
    mkState true (if ref_current then false else observing st1)
            (previous st1) (callbacks st1)
  else st1.

(** Modelled from the spec: the IntersectionObserver itself is the
    browser's and is not in src/.  The spec gives its contract: the
    signal changes "the first time the region's visible fraction reaches
    the threshold".  So, while the target is observed, the observer
    compares the visible fraction with the threshold; it calls back on the
    first comparison and whenever the verdict differs from the previous
    one, with [isIntersecting] set to the verdict. *)
Definition observe (threshold : Q) (ref_current : bool) (st : State) (fraction : Q) : State :=
  if observing st then
    let verdict := Qle_bool threshold fraction in
    let st1 := mkState (isIntersecting st) (observing st) (Some verdict)
                       (callbacks st) in
    match previous st with
    | Some v => if Bool.eqb v verdict then st
                else callback ref_current (mkEntry verdict) st1
    | None => callback ref_current (mkEntry verdict) st1
    end
  else st.

(** The hook after the region showed the fractions [fs], in this order. *)
Definition after (threshold : Q) (ref_current : bool) (fs : list Q) : State :=
  fold_left (observe threshold ref_current) fs (mount ref_current).

(** What [useOnScreen] returns at that point. *)
Definition useOnScreen (threshold : Q) (ref_current : bool) (fs : list Q) : bool :=
  isIntersecting (after threshold ref_current fs).

(** What holds of the hook's state between two callbacks, for a region
    whose ref is set: the signal is on exactly when the observation has
    stopped, and a region still observed was never seen at the threshold. *)
Definition consistent (st : State) : Prop :=
  isIntersecting st = negb (observing st) /\
  (observing st = true -> previous st <> Some true).

End Tracker.

(* ================================================================== *)
(** ** Testimonials: the carousel index *)

Module Testimonials.

(** [testimonials.length] of the source. *)
Definition testimonials_length : Z := 2.

(** [a % b] on integers: the remainder takes the sign of the dividend. *)
Definition js_rem (a b : Z) : Z := Z.rem a b.

(** The updater of [next]: [prev => (prev + 1) % testimonials.length]. *)
Definition next (length prev : Z) : Z := js_rem (prev + 1) length.

(** The updater of [prev]:
    [prev => (prev - 1 + testimonials.length) % testimonials.length]. *)
Definition prev (length prev : Z) : Z := js_rem (prev - 1 + length) length.

(** The two round buttons. *)
Inductive Click : Type := ClickNext | ClickPrev.

Definition click (length : Z) (currentIndex : Z) (c : Click) : Z :=
  match c with
  | ClickNext => next length currentIndex
  | ClickPrev => prev length currentIndex
  end.

(** [currentIndex] after some clicks, from [useState(0)]. *)
Definition currentIndex (length : Z) (cs : list Click) : Z :=
  fold_left (click length) cs 0%Z.

(** Clicks on the next button minus clicks on the previous button. *)
Fixpoint balance (cs : list Click) : Z :=
  match cs with
  | [] => 0
  | ClickNext :: cs' => balance cs' + 1
  | ClickPrev :: cs' => balance cs' - 1
  end.

End Testimonials.

(* ================================================================== *)
(** ** ReachPeople: the accordion *)

Module ReachPeople.

(** [openIndex === index], with [openIndex] a number or [null]. *)
Definition isOpen (openIndex : option nat) (index : nat) : bool :=
  match openIndex with
  | Some i => (i =? index)%nat
  | None => false
  end.

(** [handleToggle]: [setOpenIndex(openIndex === index ? null : index)]. *)
Definition handleToggle (openIndex : option nat) (index : nat) : option nat :=
  if isOpen openIndex index then None else Some index.

(** [useState<number | null>(0)], then clicks on item headers. *)
Definition openIndex (clicks : list nat) : option nat :=
  fold_left handleToggle clicks (Some 0).

End ReachPeople.

(* ================================================================== *)
(** ** Header and Footer: the in-page links *)

Module Nav.

(** What a click on a link does. *)
Inductive Effect : Type :=
| PreventDefault                  (* e.preventDefault() *)
| ScrollIntoView (id : string).   (* targetElement.scrollIntoView(...) *)







End Nav.

(* ================================================================== *)
(** ** useOnScreen over the life of its component *)

Module Hook.

(** The hook of a mounted component: the threshold of the last render,
    whether the component is still mounted, and the state of the hook and
    of the observer that its effect created last. *)
Record t : Type := mk {
  threshold : Q;
  mounted : bool;
  state : Tracker.State
}.

Inductive Event : Type :=
| Observed (fraction : Q)    (* the region now shows this fraction *)
| Render (threshold : Q)     (* the component renders with this threshold *)
| Unmount.                   (* the component goes away *)

(** After the first render with [threshold]. *)
Definition start (threshold : Q) (ref_current : bool) : t :=
  mk threshold true (Tracker.mount ref_current).

(** The cleanup of the effect:
    [if (currentRef) { observer.unobserve(currentRef); }]. *)
Definition cleanup (st : Tracker.State) : Tracker.State :=
  Tracker.mkState (Tracker.isIntersecting st) false (Tracker.previous st)
                  (Tracker.callbacks st).

(** The effect: a new observer, which observes [ref.current] if it is
    set.  [isIntersecting] is state of the component and stays. *)
Definition effect (ref_current : bool) (st : Tracker.State) : Tracker.State :=
  Tracker.mkState (Tracker.isIntersecting st) ref_current None
                  (Tracker.callbacks st).

(** The dependencies are [[ref, threshold]] and [ref] is the same object
    at every render: the effect runs again when the threshold is another
    number. *)
Definition step (ref_current : bool) (h : t) (ev : Event) : t :=
  if mounted h then
    match ev with
    | Observed fraction =>
        mk (threshold h) true
           (Tracker.observe (threshold h) ref_current (state h) fraction)
    | Render threshold' =>
        mk threshold' true
           (if Qeq_bool (threshold h) threshold' then state h
            else effect ref_current (cleanup (state h)))
    | Unmount => mk (threshold h) false (cleanup (state h))
    end
  else h.

Definition run (ref_current : bool) (h : t) (evs : list Event) : t :=
  fold_left (step ref_current) evs h.

(** What [useOnScreen] returned at the last render. *)
Definition signal (threshold : Q) (ref_current : bool) (evs : list Event) : bool :=
  Tracker.isIntersecting (state (run ref_current (start threshold ref_current) evs)).

(** Some fraction shown while the component was mounted reached the
    threshold that was in force when it was shown. *)
Fixpoint reached (threshold : Q) (evs : list Event) : bool :=
  match evs with
  | [] => false
  | Observed fraction :: evs' => Qle_bool threshold fraction || reached threshold evs'
  | Render threshold' :: evs' => reached threshold' evs'
  | Unmount :: _ => false
  end.

(** What holds of a mounted hook whose ref is set. *)
Definition sound (st : Tracker.State) : Prop :=
  (Tracker.observing st = false -> Tracker.isIntersecting st = true) /\
  (Tracker.previous st = Some true -> Tracker.isIntersecting st = true).

End Hook.

(* ================================================================== *)
(** ** Notions for the whole life of the page *)

(** [formData[name]]: what the input named [f] shows,
    [value={formData.name}] and the like. *)
Definition field (fd : FormData) (f : Field) : string :=
  match f with
  | FName => name fd
  | FEmail => email fd
  | FOrganization => organization fd
  | FMessage => message fd
  end.

Definition Field_eqb (f g : Field) : bool :=
  match f, g with
  | FName, FName | FEmail, FEmail
  | FOrganization, FOrganization | FMessage, FMessage => true
  | _, _ => false
  end.

(** What a handler does before its first suspension, the suspension
    included, and what it leaves for later. *)
Fixpoint sync_part (k : list Effect) : list Effect :=
  match k with
  | [] => []
  | Delay ms :: _ => [Delay ms]
  | e :: k' => e :: sync_part k'
  end.

Fixpoint parked (k : list Effect) : list Effect :=
  match k with
  | [] => []
  | Delay _ :: k' => k'
  | _ :: k' => parked k'
  end.

(** Form data that passes both checks of [handleSubmit]. *)
Definition valid_form (fd : FormData) : Prop :=
  name fd <> "" /\ email fd <> "" /\ organization fd <> "" /\
  validateEmail (email fd) = true.

(** An effect that, if it is a call of [sendEmail], carries valid data. *)
Definition sends_valid (e : Effect) : Prop :=
  match e with
  | ConsoleLog data => valid_form data
  | _ => True
  end.

(** Clicks on the submit button among some events. *)
Fixpoint clicks (evs : list Event) : nat :=
  match evs with
  | [] => 0
  | SubmitClick :: evs' => S (clicks evs')
  | _ :: evs' => clicks evs'
  end.

(** The pending dismissals and the pending deliveries. *)
Definition is_auto (t : Timer) : bool :=
  match task t with AutoClose => true | Resume _ _ => false end.

Definition autos (w : World) : list Timer := filter is_auto (timers w).

Definition in_flight (w : World) : list Timer :=
  filter (fun t => negb (is_auto t)) (timers w).

(** A handler part without suspension. *)
Definition is_delay (e : Effect) : bool :=
  match e with Delay _ => true | _ => false end.

Definition delay_free (k : list Effect) : Prop :=
  forallb (fun e => negb (is_delay e)) k = true.

(** A handler that suspends at most once, for at most 1500 ms. *)
Definition short_delay (e : Effect) : Prop :=
  match e with Delay ms => (ms <= 1500)%N | _ => True end.

Definition suspends_once (k : list Effect) : Prop :=
  Forall short_delay k /\ delay_free (parked k).

(** What holds of each pending timer of the page: its id has been handed
    out; a dismissal is the one that the mounted Toast holds and is due
    within 5000 ms; a parked continuation is due within 1500 ms and will
    not suspend again. *)
Definition timer_ok (w : World) (t : Timer) : Prop :=
  timer_id t < nextTimer w /\
  match task t with
  | AutoClose => toastTimer w = Some (timer_id t) /\ (due t <= now w + 5000)%N
  | Resume _ k => (due t <= now w + 1500)%N /\ delay_free k
  end.

Definition timers_ok (w : World) : Prop :=
  Forall (timer_ok w) (timers w) /\ NoDup (map timer_id (timers w)).

(** A visible notification has a pending dismissal, a hidden one none. *)
Definition toast_armed (w : World) : Prop :=
  match toast w with
  | Some _ => exists t, In t (timers w) /\ is_auto t = true
  | None => autos w = []
  end.

Definition page_ok (w : World) : Prop := timers_ok w /\ toast_armed w.

(** ** Addresses as users write them *)

Definition is_letter (c : ascii) : bool :=
  Str.between 97 122 c || Str.between 65 90 c.

Definition is_digit (c : ascii) : bool := Str.between 48 57 c.

(** Letters, digits, hyphen. *)
Definition is_label_char (c : ascii) : bool :=
  is_letter c || is_digit c || Ascii.eqb c "-".

(** Letters, digits, and the signs that local parts commonly carry. *)
Definition is_atom_char (c : ascii) : bool :=
  is_label_char c || Ascii.eqb c "_" || Ascii.eqb c "+".

Fixpoint all_chars (p : ascii -> bool) (s : string) : bool :=
  match s with
  | EmptyString => true
  | String c s' => p c && all_chars p s'
  end.

(** [first.a1.a2...]: atoms joined by dots. *)
Definition dotted (first : string) (rest : list string) : string :=
  (first ++ fold_right (fun a s => "." ++ a ++ s) "" rest)%string.

(** [l1.l2...tld]: labels, each followed by a dot, then the last label. *)
Definition hostname_of (labels : list string) (tld : string) : string :=
  fold_right (fun h d => h ++ "." ++ d)%string tld labels.

(* ================================================================== *)
(** * Properties *)

(** ** Strings *)

Lemma sapp_nil_r (s : string) : (s ++ "")%string = s.
Proof. induction s as [|c s IH]; simpl; [reflexivity | now rewrite IH]. Qed.

Lemma sapp_assoc (a b c : string) : ((a ++ b) ++ c = a ++ (b ++ c))%string.
Proof. induction a as [|x a IH]; simpl; [reflexivity | now rewrite IH]. Qed.

Lemma sapp_eq_nil (a b : string) : (a ++ b)%string = "" -> a = "" /\ b = "".
Proof. destruct a; simpl; [now split | discriminate]. Qed.

Lemma sapp_eq_cons (a b : string) (c : ascii) (s : string) :
  (a ++ b)%string = String c s ->
  (a = "" /\ b = String c s) \/ (exists a', a = String c a' /\ s = (a' ++ b)%string).
Proof.
  destruct a as [|x a]; simpl; intros H.
  - now left.
  - injection H as -> <-. right. now exists a.
Qed.

Lemma startsWith_spec (s p : string) :
  Str.startsWith s p = true <-> exists post, s = (p ++ post)%string.
Proof.
  revert s; induction p as [|a p IH]; intros s; simpl.
  - split; [intros _; now exists s | reflexivity].
  - destruct s as [|b s]; simpl.
    + split; [discriminate | intros [post H]; discriminate].
    + rewrite andb_true_iff, Ascii.eqb_eq, IH. split.
      * intros [-> [post ->]]. now exists post.
      * intros [post H]. injection H as -> ->. split; [reflexivity | now exists post].
Qed.

Lemma includes_spec (s p : string) :
  Str.includes s p = true <-> Str.Substring p s.
Proof.
  unfold Str.Substring. induction s as [|b s IH]; simpl.
  - rewrite orb_false_r, startsWith_spec. split.
    + intros [post H]. now exists "", post.
    + intros [pre [post H]]. destruct pre; simpl in H.
      * now exists post.
      * discriminate.
  - rewrite orb_true_iff, startsWith_spec, IH. split.
    + intros [[post H] | [pre [post H]]].
      * now exists "", post.
      * exists (String b pre), post. simpl. now rewrite H.
    + intros [pre [post H]]. destruct pre as [|c pre]; simpl in H.
      * left. now exists post.
      * right. injection H as _ H. now exists pre, post.
Qed.

Lemma includes_false (s p : string) :
  Str.includes s p = false <-> ~ Str.Substring p s.
Proof.
  rewrite <- includes_spec. destruct (Str.includes s p); split; congruence.
Qed.

Lemma falsy_spec (s : string) : Str.falsy s = true <-> s = "".
Proof. destruct s; simpl; split; congruence. Qed.

Lemma falsy_false (s : string) : Str.falsy s = false <-> s <> "".
Proof. destruct s; simpl; split; congruence. Qed.

(** ** The matcher computes the language of a pattern *)

Lemma matches_seq_inv (a b : Re.t) (s : string) :
  Re.Matches (Re.Seq a b) s ->
  exists u v, s = (u ++ v)%string /\ Re.Matches a u /\ Re.Matches b v.
Proof. intros H. inversion H; subst. now exists u, v. Qed.

Lemma matches_alt_inv (a b : Re.t) (s : string) :
  Re.Matches (Re.Alt a b) s -> Re.Matches a s \/ Re.Matches b s.
Proof. intros H. inversion H; subst; [now left | now right]. Qed.

(** A non-empty match of a star starts with a non-empty match of its
    body. *)
Lemma matches_star_cons (a : Re.t) (c : ascii) (s : string) :
  Re.Matches (Re.Star a) (String c s) ->
  exists u v, s = (u ++ v)%string /\ Re.Matches a (String c u)
              /\ Re.Matches (Re.Star a) v.
Proof.
  intros H. remember (Re.Star a) as r eqn:Er. remember (String c s) as w eqn:Ew.
  revert s Ew. induction H; intros s0 Ew; try discriminate.
  injection Er as ->.
  destruct u as [|x u]; simpl in Ew.
  - apply IHMatches2; [reflexivity | assumption].
  - injection Ew as -> <-. now exists u, v.
Qed.

Lemma nullable_spec (r : Re.t) : Re.nullable r = true <-> Re.Matches r "".
Proof.
  induction r; simpl.
  - split; [discriminate | intros H; inversion H].
  - split; [intros _; constructor | reflexivity].
  - split; [discriminate | intros H; inversion H].
  - split; [discriminate | intros H; inversion H].
  - split; [discriminate | intros H; inversion H].
  - split; [discriminate | intros H; inversion H].
  - rewrite andb_true_iff, IHr1, IHr2. split.
    + intros [H1 H2]. change "" with ("" ++ "")%string. now constructor.
    + intros H. apply matches_seq_inv in H as (u & v & E & Hu & Hv).
      symmetry in E. apply sapp_eq_nil in E as [-> ->]. now split.
  - rewrite orb_true_iff, IHr1, IHr2. split.
    + intros [H | H]; [now apply Re.MAltL | now apply Re.MAltR].
    + apply matches_alt_inv.
  - split; [intros _; constructor | reflexivity].
Qed.

Lemma deriv_spec (r : Re.t) (c : ascii) (s : string) :
  Re.Matches (Re.deriv c r) s <-> Re.Matches r (String c s).
Proof.
  revert s. induction r; intros s; simpl.
  - split; intros H; inversion H.
  - split; intros H; inversion H.
  - destruct (Ascii.eqb c0 c) eqn:E.
    + apply Ascii.eqb_eq in E as ->. split; intros H; inversion H; subst; constructor.
    + split; intros H; inversion H; subst.
      rewrite Ascii.eqb_refl in E. discriminate.
  - destruct (Re.is_line_terminator c) eqn:E.
    + split; intros H; inversion H; subst. congruence.
    + split; intros H; inversion H; subst; now constructor.
  - destruct (Re.class_has cls c) eqn:E.
    + split; intros H; inversion H; subst; now constructor.
    + split; intros H; inversion H; subst. congruence.
  - destruct (Re.class_has cls c) eqn:E.
    + split; intros H; inversion H; subst. congruence.
    + split; intros H; inversion H; subst; now constructor.
  - assert (Hseq : Re.Matches (Re.Seq (Re.deriv c r1) r2) s ->
                   Re.Matches (Re.Seq r1 r2) (String c s)).
    { intros H. apply matches_seq_inv in H as (u & v & -> & Hu & Hv).
      apply IHr1 in Hu. change (String c (u ++ v)) with (String c u ++ v)%string.
      now constructor. }
    assert (Hinv : Re.Matches (Re.Seq r1 r2) (String c s) ->
                   Re.Matches (Re.Seq (Re.deriv c r1) r2) s \/
                   (Re.Matches r1 "" /\ Re.Matches r2 (String c s))).
    { intros H. apply matches_seq_inv in H as (u & v & E & Hu & Hv).
      symmetry in E. apply sapp_eq_cons in E as [[-> ->] | (u' & -> & ->)].
      - right. now split.
      - left. constructor; [now apply IHr1 | assumption]. }
    destruct (Re.nullable r1) eqn:En.
    + split.
      * intros H. apply matches_alt_inv in H as [H | H]; [now apply Hseq|].
        apply IHr2 in H. apply nullable_spec in En.
        change (String c s) with ("" ++ String c s)%string. now constructor.
      * intros H. apply Hinv in H as [H | [_ H]].
        -- now apply Re.MAltL.
        -- apply Re.MAltR. now apply IHr2.
    + split; [apply Hseq|].
      intros H. apply Hinv in H as [H | [H _]]; [assumption|].
      apply nullable_spec in H. congruence.
  - split.
    + intros H. apply matches_alt_inv in H as [H | H].
      * apply Re.MAltL. now apply IHr1.
      * apply Re.MAltR. now apply IHr2.
    + intros H. apply matches_alt_inv in H as [H | H].
      * apply Re.MAltL. now apply IHr1.
      * apply Re.MAltR. now apply IHr2.
  - split.
    + intros H. apply matches_seq_inv in H as (u & v & -> & Hu & Hv).
      apply IHr in Hu. change (String c (u ++ v)) with (String c u ++ v)%string.
      now constructor.
    + intros H. apply matches_star_cons in H as (u & v & -> & Hu & Hv).
      constructor; [now apply IHr | assumption].
Qed.

Lemma test_spec (r : Re.t) (s : string) : Re.test r s = true <-> Re.Matches r s.
Proof.
  revert r. induction s as [|c s IH]; intros r; simpl.
  - apply nullable_spec.
  - rewrite IH. apply deriv_spec.
Qed.

(** [validateEmail] decides the address grammar on the lower-cased input. *)
Lemma validateEmail_spec (e : string) :
  validateEmail e = true <-> Re.Matches Email.re (Str.toLowerCase e).
Proof. apply test_spec. Qed.

Lemma validateEmail_false (e : string) :
  validateEmail e = false <-> ~ Re.Matches Email.re (Str.toLowerCase e).
Proof.
  rewrite <- validateEmail_spec. destruct (validateEmail e); split; congruence.
Qed.

(** ** The address grammar: local-part, an at sign, a domain with a dot *)

Lemma substring_refl (p : string) : Str.Substring p p.
Proof. exists "", "". simpl. now rewrite sapp_nil_r. Qed.

Lemma substring_app_l (p u v : string) :
  Str.Substring p u -> Str.Substring p (u ++ v)%string.
Proof.
  intros (pre & post & ->). exists pre, (post ++ v)%string.
  now rewrite !sapp_assoc.
Qed.

Lemma substring_app_r (p u v : string) :
  Str.Substring p v -> Str.Substring p (u ++ v)%string.
Proof.
  intros (pre & post & ->). exists (u ++ pre)%string, post.
  now rewrite !sapp_assoc.
Qed.

Lemma matches_lit_inv (c : ascii) (s : string) :
  Re.Matches (Re.Lit c) s -> s = String c "".
Proof. intros H. now inversion H. Qed.

(** A pattern [a c b], with [c] a literal, only matches strings with [c]. *)
Lemma matches_around_lit (a b : Re.t) (c : ascii) (s : string) :
  Re.Matches (Re.Seq a (Re.Seq (Re.Lit c) b)) s ->
  exists u v, s = (u ++ String c v)%string /\ Re.Matches a u /\ Re.Matches b v.
Proof.
  intros H. apply matches_seq_inv in H as (u & v & -> & Hu & H).
  apply matches_seq_inv in H as (x & y & -> & Hx & Hy).
  apply matches_lit_inv in Hx as ->. now exists u, y.
Qed.

Lemma local_part_nonempty (s : string) :
  Re.Matches Email.local_part s -> s <> "".
Proof.
  intros H ->. apply nullable_spec in H. vm_compute in H. discriminate.
Qed.

Lemma domain_has_dot (d : string) :
  Re.Matches Email.domain d -> Str.Substring "." d.
Proof.
  intros H. apply matches_alt_inv in H as [H | H].
  - unfold Email.ip_literal in H.
    apply matches_seq_inv in H as (u & v & -> & _ & H).
    apply matches_around_lit in H as (x & y & -> & _ & _).
    apply substring_app_r, substring_app_r.
    change (String "." y) with ("." ++ y)%string.
    apply substring_app_l, substring_refl.
  - unfold Email.hostname in H.
    apply matches_seq_inv in H as (u & v & -> & H & _).
    apply substring_app_l.
    apply matches_seq_inv in H as (x & y & -> & H & _).
    apply substring_app_l.
    apply matches_seq_inv in H as (l & dot & -> & _ & H).
    apply matches_lit_inv in H as ->.
    apply substring_app_r, substring_refl.
Qed.

(** Every string of the grammar is local-part, at sign, domain, with a
    non-empty local part and a dot in the domain. *)
Lemma grammar_shape (s : string) :
  Re.Matches Email.re s ->
  exists l d, s = (l ++ String "@" d)%string /\ l <> "" /\ Str.Substring "." d.
Proof.
  intros H. apply matches_around_lit in H as (l & d & -> & Hl & Hd).
  exists l, d. split; [reflexivity|]. split.
  - now apply local_part_nonempty.
  - now apply domain_has_dot.
Qed.

(** Lower-casing keeps the at signs and the dots where they are. *)
Lemma lower_char_at (c : ascii) :
  Str.lower_char c = "@"%char <-> c = "@"%char.
Proof.
  destruct c as [[] [] [] [] [] [] [] []]; vm_compute; split; congruence.
Qed.

Lemma lower_char_dot (c : ascii) :
  Str.lower_char c = "."%char <-> c = "."%char.
Proof.
  destruct c as [[] [] [] [] [] [] [] []]; vm_compute; split; congruence.
Qed.

Lemma toLowerCase_app_inv (e a b : string) :
  Str.toLowerCase e = (a ++ b)%string ->
  exists a' b', e = (a' ++ b')%string /\ Str.toLowerCase a' = a
                /\ Str.toLowerCase b' = b.
Proof.
  revert e. induction a as [|x a IH]; intros e H; simpl in H.
  - now exists "", e.
  - destruct e as [|c e]; simpl in H; [discriminate|].
    injection H as Hc H. apply IH in H as (a' & b' & -> & <- & <-).
    exists (String c a'), b'. simpl. now rewrite Hc.
Qed.

Lemma toLowerCase_has_dot (e : string) :
  Str.Substring "." (Str.toLowerCase e) -> Str.Substring "." e.
Proof.
  intros (pre & post & H). apply toLowerCase_app_inv in H as (p' & r & -> & _ & H).
  destruct r as [|c r]; simpl in H; [discriminate|].
  injection H as Hc _. apply lower_char_dot in Hc as ->.
  apply substring_app_r. change (String "." r) with ("." ++ r)%string.
  apply substring_app_l, substring_refl.
Qed.

(** What [validateEmail] accepts has the shape the spec gives. *)
Lemma validateEmail_shape (e : string) :
  validateEmail e = true ->
  exists l d, e = (l ++ String "@" d)%string /\ l <> "" /\ Str.Substring "." d.
Proof.
  intros H. apply validateEmail_spec, grammar_shape in H as (l & d & E & Hl & Hd).
  apply toLowerCase_app_inv in E as (l' & r & -> & <- & Hr).
  destruct r as [|c d']; simpl in Hr; [discriminate|].
  injection Hr as Hc <-. apply lower_char_at in Hc as ->.
  exists l', d'. split; [reflexivity|]. split.
  - intros ->. now apply Hl.
  - now apply toLowerCase_has_dot.
Qed.

(** An address with no at sign is not valid. *)
Lemma validateEmail_needs_at (e : string) :
  ~ Str.Substring "@" e -> validateEmail e = false.
Proof.
  intros Hno. destruct (validateEmail e) eqn:E; [|reflexivity].
  exfalso. apply Hno. apply validateEmail_shape in E as (l & d & -> & _ & _).
  apply substring_app_r. change (String "@" d) with ("@" ++ d)%string.
  apply substring_app_l, substring_refl.
Qed.

(** An address that is not of the shape local-part, at sign, domain with
    a dot, is not valid. *)
Lemma validateEmail_rejects_shapeless (e : string) :
  ~ (exists l d, e = (l ++ String "@" d)%string /\ l <> ""
                 /\ Str.Substring "." d) ->
  validateEmail e = false.
Proof.
  intros Hno. destruct (validateEmail e) eqn:E; [|reflexivity].
  exfalso. apply Hno. now apply validateEmail_shape.
Qed.

Example validateEmail_examples :
  validateEmail "test@ok.com" = true /\
  validateEmail "test@fail.com" = true /\
  validateEmail "user@FAIL.com" = true /\
  validateEmail "a.b@[1.22.333.4]" = true /\
  validateEmail "bad-address" = false /\
  validateEmail "a@b" = false /\
  validateEmail "a b@c.de" = false /\
  validateEmail "" = false.
Proof. vm_compute. repeat split. Qed.

(** ** sendEmail *)

(** Opens the writer of a handler down to its list of effects. *)
Ltac open_handler :=
  unfold sendEmail, value, effects, bind, emit, ret; simpl.

(** C2. The mock delivery answers with the failure object exactly when
    the email contains the substring fail, and with the success object
    for every other input. *)
Theorem sendEmail_outcome (data : FormData) :
  (res_success (value (sendEmail data)) = false
     <-> Str.Substring "fail" (email data)) /\
  ((Str.Substring "fail" (email data) /\
    value (sendEmail data)
      = mkSendResult false "Failed to send. Please try again.") \/
   (~ Str.Substring "fail" (email data) /\
    value (sendEmail data)
      = mkSendResult true "Successful, we'll get back to you soon!")).
Proof.
  open_handler.
  destruct (Str.includes (email data) "fail") eqn:E; simpl.
  - apply includes_spec in E. split; [tauto | left; now split].
  - apply includes_false in E. split; [split; [discriminate | tauto] | right; now split].
Qed.

(** ** handleSubmit, as a sequence of effects *)

Lemma handleSubmit_missing (fd : FormData) :
  name fd = "" \/ email fd = "" \/ organization fd = "" ->
  effects (handleSubmit fd) = [PreventDefault; missing_fields_toast].
Proof.
  intros H. unfold handleSubmit.
  assert (E : Str.falsy (name fd) || Str.falsy (email fd)
              || Str.falsy (organization fd) = true).
  { rewrite !orb_true_iff, !falsy_spec. tauto. }
  rewrite E. reflexivity.
Qed.

Lemma required_present (fd : FormData) :
  name fd <> "" -> email fd <> "" -> organization fd <> "" ->
  Str.falsy (name fd) || Str.falsy (email fd) || Str.falsy (organization fd)
  = false.
Proof.
  intros Hn He Ho. apply falsy_false in Hn, He, Ho. now rewrite Hn, He, Ho.
Qed.

Lemma handleSubmit_invalid (fd : FormData) :
  name fd <> "" -> email fd <> "" -> organization fd <> "" ->
  validateEmail (email fd) = false ->
  effects (handleSubmit fd) = [PreventDefault; invalid_email_toast].
Proof.
  intros Hn He Ho Hv. unfold handleSubmit.
  rewrite required_present, Hv by assumption. reflexivity.
Qed.

Lemma handleSubmit_valid (fd : FormData) :
  name fd <> "" -> email fd <> "" -> organization fd <> "" ->
  validateEmail (email fd) = true ->
  effects (handleSubmit fd) =
    [PreventDefault; SetIsSending true; ConsoleLog fd; Delay 1500;
     SetIsSending false] ++
    (if res_success (value (sendEmail fd))
     then [ShowToast success (res_message (value (sendEmail fd))); OnClose]
     else [ShowToast error (res_message (value (sendEmail fd)))]).
Proof.
  intros Hn He Ho Hv. unfold handleSubmit.
  rewrite required_present, Hv by assumption.
  open_handler.
  destruct (Str.includes (email fd) "fail"); reflexivity.
Qed.

(** ** Renders of App leave the form and the trace alone *)

Lemma render_Toast_frame (w : World) :
  now (render_Toast w) = now w /\
  isModalOpen (render_Toast w) = isModalOpen w /\
  toast (render_Toast w) = toast w /\
  modal (render_Toast w) = modal w /\
  trace (render_Toast w) = trace w.
Proof.
  unfold render_Toast. destruct (toastTimer w), (toast w) eqn:E; simpl;
    rewrite ?E; simpl; repeat split; reflexivity || assumption.
Qed.

Lemma render_frame (w : World) :
  now (render w) = now w /\
  isModalOpen (render w) = isModalOpen w /\
  toast (render w) = toast w /\
  trace (render w) = trace w.
Proof.
  unfold render. destruct (render_Toast_frame (render_DemoModal w)) as (-> & -> & -> & _ & ->).
  unfold render_DemoModal. destruct (isModalOpen w) eqn:Eo, (modal w); simpl;
    rewrite ?Eo; repeat split.
Qed.

Lemma render_modal_open (w : World) (m : Modal) :
  isModalOpen w = true -> modal w = Some m -> modal (render w) = Some m.
Proof.
  intros Ho Hm. unfold render.
  destruct (render_Toast_frame (render_DemoModal w)) as (_ & _ & _ & -> & _).
  unfold render_DemoModal. now rewrite Ho, Hm.
Qed.

Lemma effects_since_app (w0 w : World) (es : list (N * Effect)) :
  trace w = (trace w0 ++ es)%list -> effects_since w0 w = map snd es.
Proof.
  intros H. unfold effects_since, effects_of. rewrite H, map_app.
  rewrite <- (length_map snd (trace w0)) at 1.
  rewrite skipn_app, skipn_all, Nat.sub_diag. reflexivity.
Qed.

Lemma deliveries_app (w0 w : World) (es : list (N * Effect)) :
  trace w = (trace w0 ++ es)%list ->
  deliveries w = deliveries w0 + count is_send (map snd es).
Proof.
  intros H. unfold deliveries, effects_of, count.
  now rewrite H, map_app, filter_app, length_app.
Qed.

(** A submission that fails validation: one toast, and nothing else
    changes. *)
Lemma rejected_submit (w : World) (m : Modal) (msg : string) :
  modal w = Some m -> isModalOpen w = true ->
  effects (handleSubmit (formData m)) = [PreventDefault; ShowToast error msg] ->
  effects_since w (form_onSubmit w) = [PreventDefault; ShowToast error msg] /\
  toast (form_onSubmit w) = Some (mkToast msg error) /\
  deliveries (form_onSubmit w) = deliveries w /\
  modal (form_onSubmit w) = Some m /\
  isModalOpen (form_onSubmit w) = true.
Proof.
  intros Hm Ho He. unfold form_onSubmit. rewrite Hm, He. simpl.
  unfold setToast.
  set (w2 := with_toast _ _).
  destruct (render_frame w2) as (_ & Hopen & Ht & Htr).
  assert (Htrace : trace (render w2)
                   = (trace w ++ [(now w, PreventDefault);
                                  (now w, ShowToast error msg)])%list).
  { rewrite Htr. subst w2. simpl. now rewrite <- app_assoc. }
  split; [now rewrite (effects_since_app _ _ _ Htrace)|].
  split; [now rewrite Ht|].
  split; [rewrite (deliveries_app _ _ _ Htrace); unfold count; simpl; lia|].
  split; [apply render_modal_open; [exact Ho | exact Hm]|].
  rewrite Hopen. exact Ho.
Qed.

(** ** Nothing depends on what the clock shows

    Moving a world [d] milliseconds along the clock and then running an
    event gives the world that running the event and then moving gives. *)

Lemma filter_map_comm {A B : Type} (f : A -> B) (p : B -> bool) (l : list A) :
  filter p (map f l) = map f (filter (fun a => p (f a)) l).
Proof.
  induction l as [|a l IH]; simpl; [reflexivity|].
  destruct (p (f a)); simpl; now rewrite IH.
Qed.

Lemma shift_setTimeout (d ms : N) (tk : Task) (w : World) :
  setTimeout tk ms (shift d w)
  = (fst (setTimeout tk ms w), shift d (snd (setTimeout tk ms w))).
Proof.
  destruct w. unfold setTimeout, shift, shift_timer; simpl.
  rewrite map_app; simpl.
  replace (now0 + d + ms)%N with (now0 + ms + d)%N by lia. reflexivity.
Qed.

Lemma shift_clearTimeout (d : N) (id : nat) (w : World) :
  clearTimeout id (shift d w) = shift d (clearTimeout id w).
Proof.
  destruct w. unfold clearTimeout, shift; simpl.
  now rewrite filter_map_comm.
Qed.

Lemma shift_render_DemoModal (d : N) (w : World) :
  render_DemoModal (shift d w) = shift d (render_DemoModal w).
Proof.
  destruct w as [n o t m tt ts nt ni tr]. unfold render_DemoModal; simpl.
  destruct o, m; reflexivity.
Qed.

Lemma shift_render_Toast (d : N) (w : World) :
  render_Toast (shift d w) = shift d (render_Toast w).
Proof.
  unfold render_Toast.
  change (toastTimer (shift d w)) with (toastTimer w).
  destruct (toastTimer w) as [id|].
  - rewrite shift_clearTimeout.
    change (with_toastTimer None (shift d (clearTimeout id w)))
      with (shift d (with_toastTimer None (clearTimeout id w))).
    set (w1 := with_toastTimer None (clearTimeout id w)).
    change (toast (shift d w1)) with (toast w1).
    destruct (toast w1); [|reflexivity].
    rewrite shift_setTimeout. destruct (setTimeout AutoClose 5000 w1). reflexivity.
  - change (toast (shift d w)) with (toast w).
    destruct (toast w); [|reflexivity].
    rewrite shift_setTimeout. destruct (setTimeout AutoClose 5000 w). reflexivity.
Qed.

Lemma shift_render (d : N) (w : World) : render (shift d w) = shift d (render w).
Proof. unfold render. now rewrite shift_render_DemoModal, shift_render_Toast. Qed.

Lemma shift_setToast (d : N) (v : option ToastState) (w : World) :
  setToast v (shift d w) = shift d (setToast v w).
Proof.
  unfold setToast. change (toast (shift d w)) with (toast w).
  change (with_toast v (shift d w)) with (shift d (with_toast v w)).
  destruct v, (toast w); try reflexivity; apply shift_render.
Qed.

Lemma shift_setIsModalOpen (d : N) (b : bool) (w : World) :
  setIsModalOpen b (shift d w) = shift d (setIsModalOpen b w).
Proof.
  unfold setIsModalOpen. change (isModalOpen (shift d w)) with (isModalOpen w).
  change (with_isModalOpen b (shift d w)) with (shift d (with_isModalOpen b w)).
  destruct (Bool.eqb (isModalOpen w) b); [reflexivity | apply shift_render].
Qed.

Lemma shift_update_modal (d : N) (inst : nat) (f : Modal -> Modal) (w : World) :
  update_modal inst f (shift d w) = shift d (update_modal inst f w).
Proof.
  unfold update_modal. change (modal (shift d w)) with (modal w).
  destruct (modal w) as [m|]; [|reflexivity].
  destruct (instance m =? inst)%nat; reflexivity.
Qed.

Lemma shift_exec (d : N) (inst : nat) (e : Effect) (w : World) :
  exec inst e (shift d w) = shift d (exec inst e w).
Proof.
  destruct e; cbn [exec];
    [ reflexivity | apply shift_update_modal | apply shift_update_modal
    | apply shift_setToast | apply shift_setIsModalOpen
    | reflexivity | reflexivity ].
Qed.

Lemma shift_record (d : N) (e : Effect) (w : World) :
  record e (shift d w) = shift d (record e w).
Proof.
  destruct w. unfold record, shift; simpl. now rewrite map_app.
Qed.

Lemma shift_run_prog (d : N) (inst : nat) (k : list Effect) (w : World) :
  run_prog inst k (shift d w) = shift d (run_prog inst k w).
Proof.
  revert w. induction k as [|e k IH]; intros w; [reflexivity|].
  destruct e; cbn [run_prog];
    rewrite ?shift_record, ?shift_exec, ?IH, ?shift_setTimeout; reflexivity.
Qed.

Lemma shift_earlier (d : N) (a b : Timer) :
  earlier (shift_timer d a) (shift_timer d b) = earlier a b.
Proof.
  unfold earlier, shift_timer; simpl. f_equal; [|f_equal].
  - destruct (N.ltb_spec (due a) (due b)), (N.ltb_spec (due a + d) (due b + d));
      reflexivity || lia.
  - destruct (N.eqb_spec (due a) (due b)), (N.eqb_spec (due a + d) (due b + d));
      reflexivity || lia.
Qed.

Lemma shift_leb (d a b : N) : (a + d <=? b + d)%N = (a <=? b)%N.
Proof.
  destruct (N.leb_spec a b), (N.leb_spec (a + d) (b + d)); reflexivity || lia.
Qed.

Lemma shift_next_due (d target : N) (ts : list Timer) :
  next_due (target + d) (map (shift_timer d) ts)
  = option_map (shift_timer d) (next_due target ts).
Proof.
  induction ts as [|t ts IH]; [reflexivity|].
  cbn [map next_due]. rewrite IH.
  change (due (shift_timer d t)) with (due t + d)%N. rewrite shift_leb.
  destruct (next_due target ts) as [u|]; cbn [option_map].
  - rewrite shift_earlier. destruct ((due t <=? target)%N && earlier t u); reflexivity.
  - destruct (due t <=? target)%N; reflexivity.
Qed.

Lemma shift_with_now_max (d a : N) (w : World) :
  with_now (N.max (now (shift d w)) (a + d)) (shift d w)
  = shift d (with_now (N.max (now w) a) w).
Proof.
  destruct w. unfold with_now, shift; simpl.
  now rewrite N.add_max_distr_r.
Qed.

Lemma shift_fire (d : N) (t : Timer) (w : World) :
  fire (shift_timer d t) (shift d w) = shift d (fire t w).
Proof.
  unfold fire.
  change (timer_id (shift_timer d t)) with (timer_id t).
  change (due (shift_timer d t)) with (due t + d)%N.
  change (task (shift_timer d t)) with (task t).
  rewrite shift_clearTimeout.
  change (now (shift d w)) with (now (shift d (clearTimeout (timer_id t) w))).
  rewrite shift_with_now_max.
  change (now (clearTimeout (timer_id t) w)) with (now w).
  destruct (task t); [apply shift_setToast | apply shift_run_prog].
Qed.

Lemma shift_pending_weight (d : N) (w : World) :
  pending_weight (shift d w) = pending_weight w.
Proof.
  unfold pending_weight, shift; simpl. now rewrite map_map.
Qed.

Lemma shift_run_timers (d : N) (fuel : nat) (target : N) (w : World) :
  run_timers fuel (target + d) (shift d w) = shift d (run_timers fuel target w).
Proof.
  revert w. induction fuel as [|fuel IH]; intros w; cbn [run_timers];
    change (timers (shift d w)) with (map (shift_timer d) (timers w));
    rewrite shift_next_due;
    destruct (next_due target (timers w)) as [t|]; cbn [option_map];
    try apply shift_with_now_max; [reflexivity|].
  now rewrite shift_fire, IH.
Qed.

(** Each event commutes with a move along the clock. *)
Lemma shift_step (d : N) (ev : Event) (w : World) :
  step ev (shift d w) = shift d (step ev w).
Proof.
  destruct ev; cbn [step].
  - apply shift_setIsModalOpen.
  - change (modal (shift d w)) with (modal w).
    destruct (modal w); [apply shift_run_prog | reflexivity].
  - change (modal (shift d w)) with (modal w).
    destruct (modal w); [apply shift_run_prog | reflexivity].
  - change (modal (shift d w)) with (modal w).
    destruct (modal w) as [m|]; [|reflexivity].
    destruct (isSending m); [reflexivity|].
    unfold form_onSubmit. change (modal (shift d w)) with (modal w).
    destruct (modal w); [apply shift_run_prog | reflexivity].
  - rewrite shift_pending_weight.
    change (now (shift d w)) with (now w + d)%N.
    replace (now w + d + ms)%N with (now w + ms + d)%N by lia.
    apply shift_run_timers.
Qed.

Lemma shift_run (d : N) (evs : list Event) (w : World) :
  run evs (shift d w) = shift d (run evs w).
Proof.
  revert w. induction evs as [|ev evs IH]; intros w; [reflexivity|].
  cbn [run fold_left]. rewrite shift_step. apply IH.
Qed.

(** ** Waiting *)

Lemma run_timers_idle (fuel : nat) (target : N) (w : World) :
  next_due target (timers w) = None ->
  run_timers fuel target w = with_now (N.max (now w) target) w.
Proof. intros H. destruct fuel; simpl; now rewrite H. Qed.

Lemma wait_initial (t0 : N) : step (Wait t0) initial = shift t0 initial.
Proof.
  unfold step. rewrite run_timers_idle by reflexivity.
  change (now initial) with 0%N. rewrite N.add_0_l, N.max_0_l. reflexivity.
Qed.

(** ** The dialog, filled in *)

Lemma editing_0 (fd : FormData) :
  editing 0 fd =
  mkWorld 0 true None (Some (mkModal 0 fd false)) None [] 0 1
    [(0%N, SetFormData (setField emptyForm FName (name fd)));
     (0%N, SetFormData (mkFormData (name fd) (email fd) "" ""));
     (0%N, SetFormData (mkFormData (name fd) (email fd) (organization fd) ""));
     (0%N, SetFormData fd)].
Proof. destruct fd as [n e o msg]. vm_compute. reflexivity. Qed.

Lemma run_cons (ev : Event) (evs : list Event) (w : World) :
  run (ev :: evs) w = run evs (step ev w).
Proof. reflexivity. Qed.

Lemma editing_shift (t0 : N) (fd : FormData) :
  editing t0 fd = shift t0 (editing 0 fd).
Proof.
  unfold editing. rewrite !(run_cons (Wait _)), !wait_initial.
  rewrite shift_run. reflexivity.
Qed.

(** ** Rejected submissions *)

(** C3. A submission with name, email or organization empty shows
    exactly the missing-fields error notification and never invokes the
    delivery operation; the dialog and its fields stay as they were. *)
Theorem missing_fields_rejected (w : World) (m : Modal) :
  modal w = Some m -> isModalOpen w = true ->
  name (formData m) = "" \/ email (formData m) = ""
    \/ organization (formData m) = "" ->
  effects (handleSubmit (formData m)) = [PreventDefault; missing_fields_toast] /\
  effects_since w (form_onSubmit w) = [PreventDefault; missing_fields_toast] /\
  toast (form_onSubmit w)
    = Some (mkToast "Please fill in all required fields." error) /\
  count is_send (effects_since w (form_onSubmit w)) = 0 /\
  deliveries (form_onSubmit w) = deliveries w /\
  modal (form_onSubmit w) = Some m /\
  isModalOpen (form_onSubmit w) = true.
Proof.
  intros Hm Ho Hempty.
  pose proof (handleSubmit_missing _ Hempty) as He.
  destruct (rejected_submit w m _ Hm Ho He) as (Hs & Ht & Hd & Hmod & Hopen).
  rewrite Hs. repeat split; assumption.
Qed.

Lemma missing_fields_rejected_witness :
  let fd := mkFormData "" "test@ok.com" "Orbis" "hello" in
  let w := editing 0 fd in
  effects_since w (form_onSubmit w) = [PreventDefault; missing_fields_toast] /\
  toast (form_onSubmit w)
    = Some (mkToast "Please fill in all required fields." error) /\
  deliveries (form_onSubmit w) = deliveries w.
Proof.
  intros fd w.
  destruct (missing_fields_rejected w (mkModal 0 fd false))
    as (_ & Hs & Ht & _ & Hd & _);
    [ vm_compute; reflexivity | vm_compute; reflexivity
    | left; reflexivity |].
  repeat split; assumption.
Defined.

(** C4. A submission whose three required fields are filled in but whose
    email is outside the address grammar shows the invalid-email error
    notification and never invokes the delivery operation. *)
Theorem invalid_email_rejected (w : World) (m : Modal) :
  modal w = Some m -> isModalOpen w = true ->
  name (formData m) <> "" -> email (formData m) <> "" ->
  organization (formData m) <> "" ->
  ~ Re.Matches Email.re (Str.toLowerCase (email (formData m))) ->
  effects (handleSubmit (formData m)) = [PreventDefault; invalid_email_toast] /\
  effects_since w (form_onSubmit w) = [PreventDefault; invalid_email_toast] /\
  toast (form_onSubmit w)
    = Some (mkToast "Please enter a valid email address." error) /\
  count is_send (effects_since w (form_onSubmit w)) = 0 /\
  deliveries (form_onSubmit w) = deliveries w /\
  modal (form_onSubmit w) = Some m /\
  isModalOpen (form_onSubmit w) = true.
Proof.
  intros Hm Ho Hn He Horg Hbad. apply validateEmail_false in Hbad.
  pose proof (handleSubmit_invalid _ Hn He Horg Hbad) as Heff.
  destruct (rejected_submit w m _ Hm Ho Heff) as (Hs & Ht & Hd & Hmod & Hopen).
  rewrite Hs. repeat split; assumption.
Qed.

Lemma invalid_email_rejected_witness :
  let fd := mkFormData "Ada" "bad-address" "Orbis" "" in
  let w := editing 0 fd in
  ~ Str.Substring "@" (email fd) /\
  effects_since w (form_onSubmit w) = [PreventDefault; invalid_email_toast] /\
  toast (form_onSubmit w)
    = Some (mkToast "Please enter a valid email address." error) /\
  deliveries (form_onSubmit w) = deliveries w.
Proof.
  intros fd w.
  assert (Hat : ~ Str.Substring "@" (email fd))
    by (apply includes_false; vm_compute; reflexivity).
  destruct (invalid_email_rejected w (mkModal 0 fd false))
    as (_ & Hs & Ht & _ & Hd & _);
    [ vm_compute; reflexivity | vm_compute; reflexivity
    | discriminate | discriminate | discriminate
    | apply validateEmail_false, validateEmail_needs_at; exact Hat | ].
  repeat split; assumption.
Defined.

(** C5. When a required field is empty and the email is invalid at the
    same time, the notification is the missing-fields one and not the
    invalid-email one: the check for empty fields comes first. *)
Theorem missing_fields_first (w : World) (m : Modal) :
  modal w = Some m -> isModalOpen w = true ->
  name (formData m) = "" \/ email (formData m) = ""
    \/ organization (formData m) = "" ->
  validateEmail (email (formData m)) = false ->
  effects_since w (form_onSubmit w) = [PreventDefault; missing_fields_toast] /\
  toast (form_onSubmit w)
    = Some (mkToast "Please fill in all required fields." error) /\
  ~ In invalid_email_toast (effects_since w (form_onSubmit w)).
Proof.
  intros Hm Ho Hempty _.
  pose proof (handleSubmit_missing _ Hempty) as He.
  destruct (rejected_submit w m _ Hm Ho He) as (Hs & Ht & _).
  rewrite Hs. split; [reflexivity|]. split; [assumption|].
  intros [H | [H | []]]; discriminate.
Qed.

Lemma missing_fields_first_witness :
  let fd := mkFormData "" "bad-address" "Orbis" "" in
  let w := editing 0 fd in
  effects_since w (form_onSubmit w) = [PreventDefault; missing_fields_toast] /\
  toast (form_onSubmit w)
    = Some (mkToast "Please fill in all required fields." error) /\
  ~ In invalid_email_toast (effects_since w (form_onSubmit w)).
Proof.
  intros fd w.
  apply (missing_fields_first w (mkModal 0 fd false));
    [ vm_compute; reflexivity | vm_compute; reflexivity
    | left; reflexivity | vm_compute; reflexivity ].
Defined.

(** ** Accepted submissions *)

Lemma submit_enabled (w : World) (m : Modal) :
  modal w = Some m -> isSending m = false ->
  step SubmitClick w
  = run_prog (instance m) (effects (handleSubmit (formData m))) w.
Proof.
  intros Hm Hs. cbn [step]. rewrite Hm, Hs. unfold form_onSubmit. now rewrite Hm.
Qed.

Lemma submit_disabled (w : World) (m : Modal) :
  modal w = Some m -> isSending m = true -> step SubmitClick w = w.
Proof. intros Hm Hs. cbn [step]. now rewrite Hm, Hs. Qed.

Lemma shift_effects_since (d : N) (w0 w : World) :
  effects_since (shift d w0) (shift d w) = effects_since w0 w.
Proof.
  unfold effects_since, effects_of, shift; simpl.
  rewrite length_map, map_map. reflexivity.
Qed.

Section AcceptedForm.

Variable fd : FormData.
Hypothesis Hn : name fd <> "".
Hypothesis He : email fd <> "".
Hypothesis Ho : organization fd <> "".
Hypothesis Hv : validateEmail (email fd) = true.

(** The world in which a delivery accepted at time 0 is in flight. *)
Lemma sending_0 :
  step SubmitClick (editing 0 fd) =
  mkWorld 0 true None (Some (mkModal 0 fd true)) None
    [mkTimer 0 1500
       (Resume 0 (SetIsSending false ::
                  if res_success (value (sendEmail fd))
                  then [ShowToast success (res_message (value (sendEmail fd)));
                        OnClose]
                  else [ShowToast error (res_message (value (sendEmail fd)))]))]
    1 1
    (trace (editing 0 fd) ++
     [(0%N, PreventDefault); (0%N, SetIsSending true); (0%N, ConsoleLog fd);
      (0%N, Delay 1500)]).
Proof.
  rewrite editing_0.
  rewrite (submit_enabled _ (mkModal 0 fd false)) by reflexivity.
  cbn [formData instance]. rewrite (handleSubmit_valid fd Hn He Ho Hv).
  clear Hn He Ho Hv. generalize (value (sendEmail fd)). intros r.
  destruct fd as [n e o msg].
  destruct (res_success r); vm_compute; reflexivity.
Qed.

Lemma succeeded_0 :
  res_success (value (sendEmail fd)) = true ->
  run [SubmitClick; Wait 1500] (editing 0 fd) =
  mkWorld 1500 false
    (Some (mkToast (res_message (value (sendEmail fd))) success))
    None (Some 2) [mkTimer 2 6500 AutoClose] 3 1
    (trace (editing 0 fd) ++
     [(0%N, PreventDefault); (0%N, SetIsSending true); (0%N, ConsoleLog fd);
      (0%N, Delay 1500); (1500%N, SetIsSending false);
      (1500%N, ShowToast success (res_message (value (sendEmail fd))));
      (1500%N, OnClose)]).
Proof.
  intros Hr. rewrite !run_cons, sending_0, Hr, editing_0.
  clear Hn He Ho Hv Hr. generalize (res_message (value (sendEmail fd))).
  intros msg. destruct fd as [n e o x]. vm_compute. reflexivity.
Qed.

Lemma failed_0 :
  res_success (value (sendEmail fd)) = false ->
  run [SubmitClick; Wait 1500] (editing 0 fd) =
  mkWorld 1500 true
    (Some (mkToast (res_message (value (sendEmail fd))) error))
    (Some (mkModal 0 fd false)) (Some 1) [mkTimer 1 6500 AutoClose] 2 1
    (trace (editing 0 fd) ++
     [(0%N, PreventDefault); (0%N, SetIsSending true); (0%N, ConsoleLog fd);
      (0%N, Delay 1500); (1500%N, SetIsSending false);
      (1500%N, ShowToast error (res_message (value (sendEmail fd))))]).
Proof.
  intros Hr. rewrite !run_cons, sending_0, Hr, editing_0.
  clear Hn He Ho Hv Hr. generalize (res_message (value (sendEmail fd))).
  intros msg. destruct fd as [n e o x]. vm_compute. reflexivity.
Qed.

End AcceptedForm.

(** A submission made in the dialog opened at [t0], 1500 ms later. *)
Lemma submission_shift (t0 : N) (fd : FormData) (evs : list Event) :
  run evs (editing t0 fd) = shift t0 (run evs (editing 0 fd)).
Proof. now rewrite editing_shift, shift_run. Qed.

Lemma success_message (fd : FormData) :
  res_success (value (sendEmail fd)) = true ->
  res_message (value (sendEmail fd)) = "Successful, we'll get back to you soon!".
Proof.
  open_handler.
  destruct (Str.includes (email fd) "fail"); simpl; [discriminate | reflexivity].
Qed.

Lemma failure_message (fd : FormData) :
  res_success (value (sendEmail fd)) = false ->
  res_message (value (sendEmail fd)) = "Failed to send. Please try again.".
Proof.
  open_handler.
  destruct (Str.includes (email fd) "fail"); simpl; [reflexivity | discriminate].
Qed.

(** C6. A valid submission whose delivery succeeds shows exactly one
    notification, a success one with the message of the delivery, and
    then calls the dialog-close signal exactly once. *)
Theorem successful_submission (t0 : N) (fd : FormData) :
  name fd <> "" -> email fd <> "" -> organization fd <> "" ->
  validateEmail (email fd) = true ->
  res_success (value (sendEmail fd)) = true ->
  let w0 := editing t0 fd in
  let w := run [SubmitClick; Wait 1500] w0 in
  effects_since w0 w
    = [PreventDefault; SetIsSending true; ConsoleLog fd; Delay 1500;
       SetIsSending false;
       ShowToast success (res_message (value (sendEmail fd))); OnClose] /\
  effects_since w0 w = effects (handleSubmit fd) /\
  res_message (value (sendEmail fd)) = "Successful, we'll get back to you soon!" /\
  count is_toast (effects_since w0 w) = 1 /\
  count is_close (effects_since w0 w) = 1 /\
  count is_send (effects_since w0 w) = 1 /\
  toast w = Some (mkToast (res_message (value (sendEmail fd))) success) /\
  isModalOpen w = false /\
  modal w = None /\
  now w = (t0 + 1500)%N.
Proof.
  intros Hn He Ho Hv Hr w0 w.
  assert (Hw : w = shift t0 (run [SubmitClick; Wait 1500] (editing 0 fd)))
    by apply submission_shift.
  assert (Hw0 : w0 = shift t0 (editing 0 fd)) by apply editing_shift.
  pose proof (succeeded_0 fd Hn He Ho Hv Hr) as H0.
  assert (Hs : effects_since w0 w
    = [PreventDefault; SetIsSending true; ConsoleLog fd; Delay 1500;
       SetIsSending false;
       ShowToast success (res_message (value (sendEmail fd))); OnClose]).
  { rewrite Hw, Hw0, shift_effects_since.
    erewrite effects_since_app; [|rewrite H0; reflexivity]. reflexivity. }
  split; [exact Hs|]. rewrite Hs.
  split; [rewrite (handleSubmit_valid fd Hn He Ho Hv), Hr; reflexivity|].
  split; [now apply success_message|].
  rewrite Hw, H0. repeat split. apply N.add_comm.
Qed.

Lemma successful_submission_witness :
  let fd := mkFormData "Ada" "test@ok.com" "Orbis" "" in
  let w0 := editing 0 fd in
  let w := run [SubmitClick; Wait 1500] w0 in
  effects_since w0 w
    = [PreventDefault; SetIsSending true; ConsoleLog fd; Delay 1500;
       SetIsSending false;
       ShowToast success "Successful, we'll get back to you soon!"; OnClose] /\
  toast w = Some (mkToast "Successful, we'll get back to you soon!" success) /\
  isModalOpen w = false.
Proof.
  intros fd w0 w.
  destruct (successful_submission 0 fd)
    as (Hs & _ & _ & _ & _ & _ & Ht & Hopen & _);
    [ discriminate | discriminate | discriminate
    | vm_compute; reflexivity | vm_compute; reflexivity | ].
  repeat split; assumption.
Defined.

(** C7. A valid submission whose delivery fails shows an error
    notification with the message of the delivery; the dialog-close
    signal is not called, the dialog stays open, and the four fields keep
    the values they had when the form was submitted. *)
Theorem failed_submission (t0 : N) (fd : FormData) :
  name fd <> "" -> email fd <> "" -> organization fd <> "" ->
  validateEmail (email fd) = true ->
  res_success (value (sendEmail fd)) = false ->
  let w0 := editing t0 fd in
  let w := run [SubmitClick; Wait 1500] w0 in
  effects_since w0 w
    = [PreventDefault; SetIsSending true; ConsoleLog fd; Delay 1500;
       SetIsSending false;
       ShowToast error (res_message (value (sendEmail fd)))] /\
  effects_since w0 w = effects (handleSubmit fd) /\
  res_message (value (sendEmail fd)) = "Failed to send. Please try again." /\
  count is_toast (effects_since w0 w) = 1 /\
  count is_close (effects_since w0 w) = 0 /\
  toast w = Some (mkToast (res_message (value (sendEmail fd))) error) /\
  isModalOpen w = true /\
  modal w = Some (mkModal 0 fd false) /\
  modal w = modal w0.
Proof.
  intros Hn He Ho Hv Hr w0 w.
  assert (Hw : w = shift t0 (run [SubmitClick; Wait 1500] (editing 0 fd)))
    by apply submission_shift.
  assert (Hw0 : w0 = shift t0 (editing 0 fd)) by apply editing_shift.
  pose proof (failed_0 fd Hn He Ho Hv Hr) as H0.
  assert (Hs : effects_since w0 w
    = [PreventDefault; SetIsSending true; ConsoleLog fd; Delay 1500;
       SetIsSending false;
       ShowToast error (res_message (value (sendEmail fd)))]).
  { rewrite Hw, Hw0, shift_effects_since.
    erewrite effects_since_app; [|rewrite H0; reflexivity]. reflexivity. }
  split; [exact Hs|]. rewrite Hs.
  split; [rewrite (handleSubmit_valid fd Hn He Ho Hv), Hr; reflexivity|].
  split; [now apply failure_message|].
  rewrite Hw, Hw0, H0, editing_0. repeat split.
Qed.

Lemma failed_submission_witness :
  let fd := mkFormData "Ada" "test@fail.com" "Orbis" "call me" in
  let w := run [SubmitClick; Wait 1500] (editing 0 fd) in
  toast w = Some (mkToast "Failed to send. Please try again." error) /\
  isModalOpen w = true /\
  modal w = Some (mkModal 0 fd false).
Proof.
  intros fd w.
  destruct (failed_submission 0 fd)
    as (_ & _ & _ & _ & _ & Ht & Hopen & Hm & _);
    [ discriminate | discriminate | discriminate
    | vm_compute; reflexivity | vm_compute; reflexivity | ].
  repeat split; assumption.
Defined.

(** ** Letter case: validation folds it, the mock delivery does not *)

Lemma lower_char_idem (c : ascii) :
  Str.lower_char (Str.lower_char c) = Str.lower_char c.
Proof. destruct c as [[] [] [] [] [] [] [] []]; vm_compute; reflexivity. Qed.

Lemma toLowerCase_idem (s : string) :
  Str.toLowerCase (Str.toLowerCase s) = Str.toLowerCase s.
Proof.
  induction s as [|c s IH]; simpl; [reflexivity|].
  now rewrite lower_char_idem, IH.
Qed.

Lemma validateEmail_toLowerCase (e : string) :
  validateEmail (Str.toLowerCase e) = validateEmail e.
Proof. unfold validateEmail. now rewrite toLowerCase_idem. Qed.

Lemma validateEmail_nonempty (e : string) : validateEmail e = true -> e <> "".
Proof. intros H ->. vm_compute in H. discriminate. Qed.

(** C10. An address that is valid and spells fail only with upper-case
    letters passes validation, which lower-cases its input, and is
    delivered with success, because the mock delivery looks for fail in
    the email as typed; the same address in lower case would fail. *)
Theorem upper_case_fail_is_delivered (t0 : N) (fd : FormData) :
  name fd <> "" -> organization fd <> "" ->
  validateEmail (email fd) = true ->
  Str.Substring "fail" (Str.toLowerCase (email fd)) ->
  ~ Str.Substring "fail" (email fd) ->
  let w0 := editing t0 fd in
  let w := run [SubmitClick; Wait 1500] w0 in
  validateEmail (Str.toLowerCase (email fd)) = validateEmail (email fd) /\
  value (sendEmail fd)
    = mkSendResult true "Successful, we'll get back to you soon!" /\
  value (sendEmail (setField fd FEmail (Str.toLowerCase (email fd))))
    = mkSendResult false "Failed to send. Please try again." /\
  count is_send (effects_since w0 w) = 1 /\
  toast w = Some (mkToast "Successful, we'll get back to you soon!" success) /\
  isModalOpen w = false.
Proof.
  intros Hn Ho Hv Hlow Hraw w0 w.
  pose proof (validateEmail_nonempty _ Hv) as He.
  assert (Hok : value (sendEmail fd)
                = mkSendResult true "Successful, we'll get back to you soon!").
  { open_handler.
    apply includes_false in Hraw. now rewrite Hraw. }
  assert (Hr : res_success (value (sendEmail fd)) = true) by now rewrite Hok.
  split; [apply validateEmail_toLowerCase|].
  split; [exact Hok|].
  split.
  { open_handler.
    apply includes_spec in Hlow. destruct fd; simpl in *. now rewrite Hlow. }
  subst w w0. rewrite submission_shift, editing_shift, shift_effects_since.
  rewrite (succeeded_0 fd Hn He Ho Hv Hr), Hok.
  erewrite effects_since_app; [|reflexivity]. repeat split.
Qed.

Lemma upper_case_fail_is_delivered_witness :
  let fd := mkFormData "Ada" "user@FAIL.com" "Orbis" "" in
  let w := run [SubmitClick; Wait 1500] (editing 0 fd) in
  validateEmail (email fd) = true /\
  value (sendEmail fd)
    = mkSendResult true "Successful, we'll get back to you soon!" /\
  value (sendEmail (setField fd FEmail "user@fail.com"))
    = mkSendResult false "Failed to send. Please try again." /\
  toast w = Some (mkToast "Successful, we'll get back to you soon!" success).
Proof.
  intros fd w.
  destruct (upper_case_fail_is_delivered 0 fd)
    as (_ & Hok & Hlow & _ & Ht & _);
    [ discriminate | discriminate | vm_compute; reflexivity
    | apply includes_spec; vm_compute; reflexivity
    | apply includes_false; vm_compute; reflexivity | ].
  split; [vm_compute; reflexivity|]. repeat split; assumption.
Defined.

(** ** Where deliveries can come from

    [sendEmail] is only ever called from the synchronous part of
    [handleSubmit]: what is parked on a timer never calls it, so the
    passing of time alone never starts a delivery. *)

Lemma no_new_delivery_refl (w : World) : no_new_delivery w w.
Proof. exists []. now rewrite app_nil_r. Qed.

Lemma no_new_delivery_trans (a b c : World) :
  no_new_delivery a b -> no_new_delivery b c -> no_new_delivery a c.
Proof.
  intros (e1 & H1 & C1) (e2 & H2 & C2). exists (e1 ++ e2). split.
  - now rewrite H2, H1, app_assoc.
  - unfold count in *. rewrite map_app, filter_app, length_app. lia.
Qed.

Lemma no_new_delivery_same_trace (w w' : World) :
  trace w' = trace w -> no_new_delivery w w'.
Proof. intros H. exists []. now rewrite app_nil_r. Qed.

Lemma pending_clearTimeout (id : nat) (w : World) :
  no_send_pending w -> no_send_pending (clearTimeout id w).
Proof.
  unfold no_send_pending, clearTimeout; simpl. intros H.
  apply Forall_forall. intros t Ht. apply filter_In in Ht as [Ht _].
  revert t Ht. now apply Forall_forall.
Qed.

Lemma pending_setTimeout (tk : Task) (ms : N) (w : World) :
  no_send_pending w ->
  parks_no_send (mkTimer (nextTimer w) (now w + ms) tk) ->
  no_send_pending (snd (setTimeout tk ms w)).
Proof.
  unfold no_send_pending, setTimeout; simpl. intros H Ht.
  apply Forall_app. split; [assumption | now constructor].
Qed.

Lemma pending_render_Toast (w : World) :
  no_send_pending w -> no_send_pending (render_Toast w).
Proof.
  intros H. unfold render_Toast.
  set (w1 := match toastTimer w with
             | Some id => with_toastTimer None (clearTimeout id w)
             | None => w
             end).
  assert (H1 : no_send_pending w1).
  { subst w1. destruct (toastTimer w); [|assumption].
    now apply (pending_clearTimeout n) in H. }
  destruct (toast w1); [|assumption].
  pose proof (pending_setTimeout AutoClose 5000 w1 H1 I) as H2.
  destruct (setTimeout AutoClose 5000 w1). exact H2.
Qed.

Lemma pending_render (w : World) :
  no_send_pending w -> no_send_pending (render w).
Proof.
  intros H. unfold render. apply pending_render_Toast.
  unfold render_DemoModal. destruct (isModalOpen w), (modal w); exact H.
Qed.

Lemma trace_render (w : World) : trace (render w) = trace w.
Proof. now destruct (render_frame w) as (_ & _ & _ & ->). Qed.

Lemma trace_setToast (v : option ToastState) (w : World) :
  trace (setToast v w) = trace w.
Proof.
  unfold setToast.
  destruct v, (toast w); try reflexivity; exact (trace_render (with_toast _ w)).
Qed.

Lemma pending_setToast (v : option ToastState) (w : World) :
  no_send_pending w -> no_send_pending (setToast v w).
Proof.
  intros H. unfold setToast.
  destruct v, (toast w); try exact H; now apply pending_render.
Qed.

Lemma trace_setIsModalOpen (b : bool) (w : World) :
  trace (setIsModalOpen b w) = trace w.
Proof.
  unfold setIsModalOpen. destruct (Bool.eqb (isModalOpen w) b);
    [reflexivity | exact (trace_render (with_isModalOpen b w))].
Qed.

Lemma pending_setIsModalOpen (b : bool) (w : World) :
  no_send_pending w -> no_send_pending (setIsModalOpen b w).
Proof.
  intros H. unfold setIsModalOpen.
  destruct (Bool.eqb (isModalOpen w) b); [exact H | now apply pending_render].
Qed.

Lemma exec_quiet (inst : nat) (e : Effect) (w : World) :
  trace (exec inst e w) = trace w /\
  (no_send_pending w -> no_send_pending (exec inst e w)).
Proof.
  destruct e; cbn [exec]; try (split; [reflexivity | tauto]).
  - unfold update_modal. destruct (modal w) as [m|]; [|split; [reflexivity|tauto]].
    destruct (instance m =? inst)%nat; split; reflexivity || tauto.
  - unfold update_modal. destruct (modal w) as [m|]; [|split; [reflexivity|tauto]].
    destruct (instance m =? inst)%nat; split; reflexivity || tauto.
  - split; [apply trace_setToast | apply pending_setToast].
  - split; [apply trace_setIsModalOpen | apply pending_setIsModalOpen].
Qed.

Lemma run_prog_quiet (inst : nat) (k : list Effect) (w : World) :
  count is_send k = 0 -> no_send_pending w ->
  no_new_delivery w (run_prog inst k w) /\ no_send_pending (run_prog inst k w).
Proof.
  revert w. induction k as [|e k IH]; intros w Hk Hw.
  - split; [apply no_new_delivery_refl | exact Hw].
  - assert (He : is_send e = false /\ count is_send k = 0).
    { unfold count in *. simpl in Hk. destruct (is_send e); simpl in Hk; [lia|].
      now split. }
    destruct He as [He Hk'].
    assert (Hrec : no_new_delivery w (record e w)).
    { exists [(now w, e)]. split; [reflexivity|].
      unfold count; simpl. now rewrite He. }
    destruct e; try discriminate He; cbn [run_prog];
      try (match goal with
           | |- context [exec inst ?x (record ?x w)] =>
               destruct (exec_quiet inst x (record x w)) as [Ht Hp];
               destruct (IH (exec inst x (record x w)) Hk' (Hp Hw)) as [Hn Hq];
               split; [|exact Hq];
               apply (no_new_delivery_trans _ _ _ Hrec);
               apply (no_new_delivery_trans _ (exec inst x (record x w)));
                 [now apply no_new_delivery_same_trace | exact Hn]
           end).
    split.
    + apply (no_new_delivery_trans _ _ _ Hrec).
      now apply no_new_delivery_same_trace.
    + apply pending_setTimeout; [exact Hw | exact Hk'].
Qed.

Lemma next_due_In (target : N) (ts : list Timer) (t : Timer) :
  next_due target ts = Some t -> In t ts /\ (due t <= target)%N.
Proof.
  revert t. induction ts as [|a ts IH]; intros t; simpl; [discriminate|].
  destruct (next_due target ts) as [u|].
  - destruct (N.leb_spec (due a) target) as [Hle|Hgt]; simpl.
    + destruct (earlier a u); intros Heq; injection Heq as <-.
      * split; [now left | assumption].
      * destruct (IH u eq_refl). split; [now right | assumption].
    + intros Heq; injection Heq as <-. destruct (IH u eq_refl).
      split; [now right | assumption].
  - destruct (N.leb_spec (due a) target) as [Hle|Hgt]; [|discriminate].
    intros Heq; injection Heq as <-. split; [now left | assumption].
Qed.

Lemma fire_quiet (t : Timer) (w : World) :
  In t (timers w) -> no_send_pending w ->
  no_new_delivery w (fire t w) /\ no_send_pending (fire t w).
Proof.
  intros Hin Hw. unfold fire.
  set (w1 := with_now _ (clearTimeout (timer_id t) w)).
  assert (H1 : no_send_pending w1) by now apply (pending_clearTimeout (timer_id t)) in Hw.
  assert (Ht : parks_no_send t).
  { unfold no_send_pending in Hw. rewrite Forall_forall in Hw. now apply Hw. }
  unfold parks_no_send in Ht. destruct (task t) as [|inst k].
  - split; [|now apply pending_setToast].
    apply no_new_delivery_same_trace. now rewrite trace_setToast.
  - destruct (run_prog_quiet inst k w1 Ht H1) as [Hn Hq]. split; [|exact Hq].
    destruct Hn as (es & He & Hc). exists es. now split.
Qed.

Lemma run_timers_quiet (fuel : nat) (target : N) (w : World) :
  no_send_pending w ->
  no_new_delivery w (run_timers fuel target w).
Proof.
  revert w. induction fuel as [|fuel IH]; intros w Hw; cbn [run_timers];
    destruct (next_due target (timers w)) as [t|] eqn:E;
    try (now apply no_new_delivery_same_trace);
    try apply no_new_delivery_refl.
  apply next_due_In in E as [Hin _].
  destruct (fire_quiet t w Hin Hw) as [Hn Hq].
  exact (no_new_delivery_trans _ _ _ Hn (IH _ Hq)).
Qed.

(** Waiting starts no delivery. *)
Lemma wait_quiet (ms : N) (w : World) :
  no_send_pending w -> no_new_delivery w (step (Wait ms) w).
Proof. apply run_timers_quiet. Qed.

(** ** The submit button while a delivery is in flight *)

(** While the delivery accepted at time 0 is in flight, clicks on the
    submit button and the passing of time, short of 1500 ms, change
    nothing but the clock. *)
Lemma sending_stays (fd : FormData) (k : list Effect) (tr : list (N * Effect))
    (evs : list Event) (t : N) :
  forallb click_or_wait evs = true ->
  (t + waited evs < 1500)%N ->
  run evs (mkWorld t true None (Some (mkModal 0 fd true)) None
                   [mkTimer 0 1500 (Resume 0 k)] 1 1 tr)
  = mkWorld (t + waited evs) true None (Some (mkModal 0 fd true)) None
            [mkTimer 0 1500 (Resume 0 k)] 1 1 tr.
Proof.
  revert t. induction evs as [|ev evs IH]; intros t Hall Hlt.
  - cbn [waited run fold_left]. now rewrite N.add_0_r.
  - cbn [forallb] in Hall. apply andb_true_iff in Hall as [Hev Hall].
    rewrite run_cons. destruct ev; try discriminate Hev; cbn [waited] in *.
    + rewrite (submit_disabled _ (mkModal 0 fd true)) by reflexivity.
      now apply IH.
    + cbn [step]. rewrite run_timers_idle.
      * cbn [now]. unfold with_now; cbn [now isModalOpen toast modal toastTimer
                                          timers nextTimer nextInstance trace].
        rewrite N.max_r by lia. rewrite IH by (assumption || lia).
        now rewrite N.add_assoc.
      * cbn [timers next_due due now].
        now rewrite (proj2 (N.leb_gt _ _)) by lia.
Qed.

(** C1. Once a valid submission is in flight, clicking the submit button
    again, any number of times and at any moments before the delivery
    resolves, does nothing: the button is disabled while isSending is
    true, and the delivery operation has been invoked exactly once, also
    after the delivery has resolved. *)
Theorem no_double_submit (t0 ms : N) (fd : FormData) (evs : list Event) :
  name fd <> "" -> email fd <> "" -> organization fd <> "" ->
  validateEmail (email fd) = true ->
  forallb click_or_wait evs = true ->
  (waited evs < 1500)%N ->
  let w0 := editing t0 fd in
  let w1 := run (SubmitClick :: evs) w0 in
  modal w1 = Some (mkModal 0 fd true) /\
  step SubmitClick w1 = w1 /\
  count is_send (effects_since w0 w1) = 1 /\
  count is_send (effects_since w0 (run [SubmitClick; Wait ms] w1)) = 1.
Proof.
  intros Hn He Ho Hv Hall Hlt w0 w1.
  set (k := SetIsSending false ::
            if res_success (value (sendEmail fd))
            then [ShowToast success (res_message (value (sendEmail fd))); OnClose]
            else [ShowToast error (res_message (value (sendEmail fd)))]).
  set (es := [(0%N, PreventDefault); (0%N, SetIsSending true);
              (0%N, ConsoleLog fd); (0%N, Delay 1500)]).
  set (v1 := mkWorld (0 + waited evs) true None (Some (mkModal 0 fd true)) None
                     [mkTimer 0 1500 (Resume 0 k)] 1 1
                     (trace (editing 0 fd) ++ es)).
  assert (H1 : w1 = shift t0 v1).
  { subst w1 w0. rewrite submission_shift. f_equal.
    rewrite run_cons, (sending_0 fd Hn He Ho Hv).
    apply sending_stays; [assumption | lia]. }
  assert (H0 : w0 = shift t0 (editing 0 fd)) by apply editing_shift.
  assert (Hclick : step SubmitClick w1 = w1).
  { apply (submit_disabled _ (mkModal 0 fd true)); [|reflexivity].
    rewrite H1. reflexivity. }
  assert (Hk : count is_send k = 0).
  { subst k. destruct (res_success (value (sendEmail fd))); reflexivity. }
  split; [rewrite H1; reflexivity|].
  split; [exact Hclick|].
  split.
  - rewrite H1, H0, shift_effects_since.
    erewrite effects_since_app; [|reflexivity]. reflexivity.
  - rewrite run_cons, Hclick. cbn [run fold_left].
    assert (Hq : no_new_delivery v1 (step (Wait ms) v1)).
    { apply wait_quiet. repeat constructor. exact Hk. }
    destruct Hq as (es' & Htr & Hc).
    rewrite H1, H0, shift_step, shift_effects_since.
    erewrite effects_since_app.
    2:{ rewrite Htr. subst v1. cbn [trace]. rewrite <- app_assoc. reflexivity. }
    unfold count in *. rewrite map_app, filter_app, length_app, Hc.
    reflexivity.
Qed.

Lemma no_double_submit_witness :
  let fd := mkFormData "Ada" "test@ok.com" "Orbis" "" in
  let w0 := editing 0 fd in
  let w1 := run [SubmitClick; Wait 10; SubmitClick; Wait 700; SubmitClick] w0 in
  step SubmitClick w1 = w1 /\
  count is_send (effects_since w0 w1) = 1 /\
  count is_send (effects_since w0 (run [SubmitClick; Wait 5000] w1)) = 1.
Proof.
  intros fd w0 w1.
  destruct (no_double_submit 0 5000 fd
              [Wait 10; SubmitClick; Wait 700; SubmitClick])
    as (_ & Hclick & H1 & H2);
    [ discriminate | discriminate | discriminate
    | vm_compute; reflexivity | reflexivity | vm_compute; reflexivity | ].
  exact (conj Hclick (conj H1 H2)).
Defined.

(** The guard is the button, not the handler: [handleSubmit] itself does
    not look at [isSending]. *)
Example onSubmit_itself_is_unguarded :
  let fd := mkFormData "Ada" "test@ok.com" "Orbis" "" in
  let w1 := step SubmitClick (editing 0 fd) in
  deliveries w1 = 1 /\ step SubmitClick w1 = w1 /\ deliveries (form_onSubmit w1) = 2.
Proof. vm_compute. repeat split. Qed.

(** ** useOnScreen *)

Lemma mount_consistent : Tracker.consistent (Tracker.mount true).
Proof. split; [reflexivity | discriminate]. Qed.

Lemma observe_stopped (threshold : Q) (st : Tracker.State) (f : Q) :
  Tracker.observing st = false -> Tracker.observe threshold true st f = st.
Proof. intros H. unfold Tracker.observe. now rewrite H. Qed.

Lemma after_stopped (threshold : Q) (st : Tracker.State) (fs : list Q) :
  Tracker.observing st = false -> fold_left (Tracker.observe threshold true) fs st = st.
Proof.
  intros H. induction fs as [|f fs IH]; [reflexivity|].
  simpl. now rewrite observe_stopped.
Qed.

Lemma observe_consistent (threshold : Q) (st : Tracker.State) (f : Q) :
  Tracker.consistent st ->
  Tracker.consistent (Tracker.observe threshold true st f) /\
  Tracker.isIntersecting (Tracker.observe threshold true st f)
  = Tracker.isIntersecting st || Qle_bool threshold f.
Proof.
  intros [Hi Hp]. unfold Tracker.observe.
  destruct (Tracker.observing st) eqn:Eo; simpl in Hi.
  - specialize (Hp eq_refl). rewrite Hi.
    destruct (Qle_bool threshold f), (Tracker.previous st) as [[|]|] eqn:Ep;
      try congruence; unfold Tracker.consistent, Tracker.callback; simpl;
      rewrite ?Hi, ?Eo, ?Ep; simpl; repeat split; intros; congruence.
  - rewrite Hi. unfold Tracker.consistent. rewrite Hi, Eo. simpl.
    repeat split; intros; congruence.
Qed.

Lemma fold_observe (threshold : Q) (fs : list Q) (st : Tracker.State) :
  Tracker.consistent st ->
  Tracker.consistent (fold_left (Tracker.observe threshold true) fs st) /\
  Tracker.isIntersecting (fold_left (Tracker.observe threshold true) fs st)
  = Tracker.isIntersecting st || existsb (Qle_bool threshold) fs.
Proof.
  revert st. induction fs as [|f fs IH]; intros st Hc; simpl.
  - split; [assumption | now rewrite orb_false_r].
  - destruct (observe_consistent threshold st f Hc) as [Hc' Hi'].
    destruct (IH _ Hc') as [Hc'' Hi'']. split; [assumption|].
    now rewrite Hi'', Hi', orb_assoc.
Qed.

(** C8. For a threshold in [0,1] and any sequence of observed visible
    fractions: the signal starts false; it is true exactly when one of
    the fractions observed so far reached the threshold; once true it
    stays true, and from then on the hook's state does not change at all:
    the observation has stopped and the callback does not run again. *)
Theorem tracker_signal (threshold : Q) (fs gs : list Q) :
  (0 <= threshold)%Q -> (threshold <= 1)%Q ->
  Tracker.useOnScreen threshold true [] = false /\
  (Tracker.useOnScreen threshold true fs = true
     <-> exists f, In f fs /\ (threshold <= f)%Q) /\
  Tracker.observing (Tracker.after threshold true fs)
    = negb (Tracker.useOnScreen threshold true fs) /\
  (Tracker.useOnScreen threshold true fs = true ->
     Tracker.useOnScreen threshold true (fs ++ gs) = true /\
     Tracker.after threshold true (fs ++ gs) = Tracker.after threshold true fs).
Proof.
  intros _ _. unfold Tracker.useOnScreen, Tracker.after.
  destruct (fold_observe threshold fs (Tracker.mount true)
              mount_consistent) as [[Hi Hp] Hsig].
  split; [reflexivity|]. split; [|split].
  - rewrite Hsig. simpl. rewrite existsb_exists. split.
    + intros (f & Hin & Hle). exists f. split; [assumption|].
      now apply Qle_bool_iff.
    + intros (f & Hin & Hle). exists f. split; [assumption|].
      now apply Qle_bool_iff.
  - rewrite Hi. now rewrite negb_involutive.
  - intros Htrue. rewrite fold_left_app.
    rewrite after_stopped.
    + split; [assumption | reflexivity].
    + rewrite Htrue in Hi. now destruct (Tracker.observing _).
Qed.

Lemma tracker_signal_witness :
  let fs := [0 # 1; 5 # 100; 3 # 10; 0 # 1]%Q in
  Tracker.useOnScreen (1 # 10) true [0 # 1; 5 # 100]%Q = false /\
  Tracker.useOnScreen (1 # 10) true fs = true /\
  Tracker.callbacks (Tracker.after (1 # 10) true (fs ++ [1 # 1; 0 # 1]%Q))
  = Tracker.callbacks (Tracker.after (1 # 10) true fs).
Proof.
  intros fs.
  destruct (tracker_signal (1 # 10) fs [1 # 1; 0 # 1]%Q)
    as (_ & _ & _ & Hmono); [discriminate | discriminate |].
  split; [reflexivity|]. split; [reflexivity|].
  destruct Hmono as [_ ->]; reflexivity.
Defined.

(** ** The toast and its timer *)

(** Whatever makes App render while a toast is shown, a new
    notification or the dialog being opened or closed, the pending
    dismissal is cancelled and a full 5000 ms timer is armed. *)
Lemma render_rearms (w : World) (t : ToastState) (id : nat) :
  toast w = Some t -> toastTimer w = Some id ->
  toastTimer (render w) = Some (nextTimer w) /\
  timers (render w)
  = filter (fun x => negb (timer_id x =? id)%nat) (timers w)
    ++ [mkTimer (nextTimer w) (now w + 5000) AutoClose].
Proof.
  intros Ht Hid. unfold render, render_Toast, render_DemoModal.
  destruct (isModalOpen w), (modal w); simpl; rewrite Hid; simpl; rewrite Ht;
    simpl; split; reflexivity.
Qed.

(** A notification that App does not render again is gone exactly
    5000 ms after it was shown. *)
Example toast_left_alone :
  let fd := mkFormData "Ada" "bad-address" "Orbis" "" in
  let shown := step SubmitClick (editing 0 fd) in
  toast shown = Some (mkToast "Please enter a valid email address." error) /\
  toast (run [Wait 4999] shown)
    = Some (mkToast "Please enter a valid email address." error) /\
  toast (run [Wait 5000] shown) = None.
Proof. vm_compute. repeat split. Qed.

(** A second notification takes over: the one shown at 1000 replaces the
    one shown at 0, whose timer is cleared; it is still there at 5000,
    when that timer would have fired, and goes at 6000. *)
Example toast_replaced :
  let fd := mkFormData "Ada" "bad-address" "Orbis" "" in
  let first := step SubmitClick (editing 0 fd) in
  let second := run [Wait 1000; Input FName ""; SubmitClick] first in
  toast first = Some (mkToast "Please enter a valid email address." error) /\
  timers first = [mkTimer 0 5000 AutoClose] /\
  now second = 1000%N /\
  toast second = Some (mkToast "Please fill in all required fields." error) /\
  timers second = [mkTimer 1 6000 AutoClose] /\
  toast (run [Wait 4000] second)
    = Some (mkToast "Please fill in all required fields." error) /\
  toast (run [Wait 4999] second)
    = Some (mkToast "Please fill in all required fields." error) /\
  toast (run [Wait 5000] second) = None.
Proof. vm_compute. repeat split. Qed.

(** C9, at a failing input.  A notification is shown at time 0 and the
    dialog is closed at time 3000; no other notification is shown and
    nothing dismisses it.  The render of App that closes the dialog hands
    Toast a new onClose, so its effect clears the timer and arms a new
    one: the notification is still there 5000 ms after it was shown, and
    goes 8000 ms after it was shown. *)
Theorem toast_outlives_its_timeout :
  let fd := mkFormData "Ada" "bad-address" "Orbis" "" in
  let shown := step SubmitClick (editing 0 fd) in
  let closed := run [Wait 3000; DialogClose] shown in
  now shown = 0%N /\
  toast shown = Some (mkToast "Please enter a valid email address." error) /\
  timers shown = [mkTimer 0 5000 AutoClose] /\
  now closed = 3000%N /\
  timers closed = [mkTimer 1 8000 AutoClose] /\
  count is_toast (effects_since shown (run [Wait 5000] closed)) = 0 /\
  now (run [Wait 2000] closed) = 5000%N /\
  toast (run [Wait 2000] closed)
    = Some (mkToast "Please enter a valid email address." error) /\
  toast (run [Wait 4999] closed)
    = Some (mkToast "Please enter a valid email address." error) /\
  now (run [Wait 5000] closed) = 8000%N /\
  toast (run [Wait 5000] closed) = None.
Proof. vm_compute. repeat split. Qed.

(** ** Waiting runs every timer that is due

    [Wait] gives [run_timers] as much fuel as [pending_weight] says; that
    is enough: afterwards no timer is due and the clock shows the time
    waited for. *)

Lemma next_due_None (target : N) (ts : list Timer) :
  next_due target ts = None -> Forall (fun t => (target < due t)%N) ts.
Proof.
  induction ts as [|a ts IH]; simpl; [constructor|].
  destruct (next_due target ts) as [u|].
  - destruct ((due a <=? target)%N && earlier a u); discriminate.
  - destruct (N.leb_spec (due a) target) as [Hle|Hgt]; [discriminate|].
    intros _. constructor; [assumption | now apply IH].
Qed.

Lemma weight_filter (p : Timer -> bool) (t : Timer) (ts : list Timer) :
  In t ts -> p t = false ->
  list_sum (map weight (filter p ts)) + weight t <= list_sum (map weight ts).
Proof.
  intros Hin Hp. induction ts as [|a ts IH]; [destruct Hin|].
  simpl. destruct Hin as [-> | Hin].
  - rewrite Hp. clear IH.
    assert (H : list_sum (map weight (filter p ts)) <= list_sum (map weight ts)).
    { induction ts as [|b ts IH]; simpl; [lia|]. destruct (p b); simpl; lia. }
    lia.
  - specialize (IH Hin). destruct (p a); simpl; lia.
Qed.

Lemma weight_clearTimeout (id : nat) (w : World) :
  pending_weight (clearTimeout id w) <= pending_weight w.
Proof.
  unfold pending_weight, clearTimeout; simpl.
  induction (timers w) as [|a ts IH]; simpl; [lia|].
  destruct (negb (timer_id a =? id)%nat); simpl; lia.
Qed.

Lemma weight_render_Toast (w : World) :
  pending_weight (render_Toast w) <= pending_weight w + 1.
Proof.
  unfold render_Toast.
  set (w1 := match toastTimer w with
             | Some id => with_toastTimer None (clearTimeout id w)
             | None => w
             end).
  assert (H1 : pending_weight w1 <= pending_weight w).
  { subst w1. destruct (toastTimer w) as [id|]; [|lia].
    exact (weight_clearTimeout id w). }
  destruct (toast w1); [|lia].
  unfold setTimeout, pending_weight in *; simpl.
  rewrite map_app, list_sum_app; simpl. lia.
Qed.

Lemma weight_render (w : World) : pending_weight (render w) <= pending_weight w + 1.
Proof.
  unfold render. etransitivity; [apply weight_render_Toast|].
  unfold render_DemoModal, pending_weight.
  destruct (isModalOpen w), (modal w); simpl; lia.
Qed.

Lemma weight_exec (inst : nat) (e : Effect) (w : World) :
  pending_weight (exec inst e w) <= pending_weight w + 1.
Proof.
  destruct e; cbn [exec]; try lia.
  - unfold update_modal, pending_weight. destruct (modal w) as [m|]; [|lia].
    destruct (instance m =? inst)%nat; simpl; lia.
  - unfold update_modal, pending_weight. destruct (modal w) as [m|]; [|lia].
    destruct (instance m =? inst)%nat; simpl; lia.
  - unfold setToast. destruct (toast w); exact (weight_render (with_toast _ w)).
  - unfold setIsModalOpen. destruct (Bool.eqb (isModalOpen w) false); [lia|].
    exact (weight_render (with_isModalOpen false w)).
Qed.

Lemma weight_run_prog (inst : nat) (k : list Effect) (w : World) :
  pending_weight (run_prog inst k w) <= pending_weight w + 2 * List.length k.
Proof.
  revert w. induction k as [|e k IH]; intros w; [simpl; lia|].
  assert (Hstep : pending_weight (run_prog inst k (exec inst e (record e w)))
                  <= pending_weight w + 2 * List.length (e :: k)).
  { etransitivity; [apply IH|].
    pose proof (weight_exec inst e (record e w)) as H.
    change (pending_weight (record e w)) with (pending_weight w) in H.
    simpl. lia. }
  destruct e; cbn [run_prog]; try exact Hstep.
  unfold setTimeout, pending_weight; simpl.
  rewrite map_app, list_sum_app; simpl. unfold weight at 2; simpl. lia.
Qed.

Lemma render_DemoModal_frame (w : World) :
  timers (render_DemoModal w) = timers w /\
  toast (render_DemoModal w) = toast w /\
  toastTimer (render_DemoModal w) = toastTimer w.
Proof.
  unfold render_DemoModal. destruct (isModalOpen w), (modal w); repeat split.
Qed.

Lemma weight_dismiss (w : World) :
  pending_weight (setToast None w) <= pending_weight w.
Proof.
  unfold setToast. destruct (toast w); [|lia].
  unfold render, render_Toast.
  destruct (render_DemoModal_frame (with_toast None w)) as (Hts & Ht & Htt).
  set (w' := render_DemoModal (with_toast None w)) in *.
  assert (Hw : pending_weight w' = pending_weight w)
    by (unfold pending_weight; now rewrite Hts).
  destruct (toastTimer w') as [id|].
  - change (toast (with_toastTimer None (clearTimeout id w'))) with (toast w').
    rewrite Ht. simpl toast. cbv iota.
    pose proof (weight_clearTimeout id w') as Hc.
    change (pending_weight (with_toastTimer None (clearTimeout id w')))
      with (pending_weight (clearTimeout id w')). lia.
  - rewrite Ht. simpl toast. cbv iota. lia.
Qed.

Lemma weight_fire (t : Timer) (w : World) :
  In t (timers w) -> pending_weight (fire t w) < pending_weight w.
Proof.
  intros Hin. unfold fire.
  set (w1 := with_now _ (clearTimeout (timer_id t) w)).
  assert (H1 : pending_weight w1 + weight t <= pending_weight w).
  { subst w1. unfold pending_weight, clearTimeout; simpl.
    apply weight_filter; [assumption|]. now rewrite Nat.eqb_refl. }
  unfold weight in H1. destruct (task t) as [|inst k].
  - pose proof (weight_dismiss w1). lia.
  - pose proof (weight_run_prog inst k w1). lia.
Qed.

Lemma now_render (w : World) : now (render w) = now w.
Proof. now destruct (render_frame w) as (-> & _). Qed.

Lemma now_exec (inst : nat) (e : Effect) (w : World) :
  now (exec inst e w) = now w.
Proof.
  destruct e; cbn [exec]; try reflexivity.
  - unfold update_modal. destruct (modal w) as [m|]; [|reflexivity].
    destruct (instance m =? inst)%nat; reflexivity.
  - unfold update_modal. destruct (modal w) as [m|]; [|reflexivity].
    destruct (instance m =? inst)%nat; reflexivity.
  - unfold setToast. destruct (toast w); now rewrite now_render.
  - unfold setIsModalOpen. destruct (Bool.eqb (isModalOpen w) false);
      [reflexivity | now rewrite now_render].
Qed.

Lemma now_run_prog (inst : nat) (k : list Effect) (w : World) :
  now (run_prog inst k w) = now w.
Proof.
  revert w. induction k as [|e k IH]; intros w; [reflexivity|].
  destruct e; cbn [run_prog]; rewrite ?IH, ?now_exec; reflexivity.
Qed.

Lemma now_fire (t : Timer) (w : World) :
  now (fire t w) = N.max (now w) (due t).
Proof.
  unfold fire. destruct (task t).
  - unfold setToast. simpl. destruct (toast w); [now rewrite now_render | reflexivity].
  - now rewrite now_run_prog.
Qed.

Lemma run_timers_settles (fuel : nat) (target : N) (w : World) :
  pending_weight w <= fuel -> (now w <= target)%N ->
  settled target (run_timers fuel target w) /\
  now (run_timers fuel target w) = target.
Proof.
  revert w. induction fuel as [|fuel IH]; intros w Hfuel Hnow; cbn [run_timers];
    destruct (next_due target (timers w)) as [t|] eqn:E.
  - apply next_due_In in E as [Hin _]. apply weight_fire in Hin. lia.
  - split; [now apply next_due_None | simpl; lia].
  - apply next_due_In in E as [Hin Hdue].
    apply IH.
    + apply weight_fire in Hin. lia.
    + rewrite now_fire. lia.
  - split; [now apply next_due_None | simpl; lia].
Qed.

(** After [Wait ms] the clock has advanced by [ms] and every timer that
    was due up to then has fired. *)
Lemma wait_settles (ms : N) (w : World) :
  settled (now w + ms) (step (Wait ms) w) /\
  now (step (Wait ms) w) = (now w + ms)%N.
Proof. apply run_timers_settles; lia. Qed.

(* ================================================================== *)
(** * Further properties of the page *)

(** ** Testimonials *)

Lemma js_rem_small (a n : Z) :
  (0 <= a < n)%Z -> Testimonials.js_rem a n = a.
Proof. intros H. unfold Testimonials.js_rem. apply Z.rem_small. lia. Qed.

Lemma next_mod (n i : Z) :
  (0 < n)%Z -> (0 <= i < n)%Z -> Testimonials.next n i = ((i + 1) mod n)%Z.
Proof.
  intros Hn Hi. unfold Testimonials.next, Testimonials.js_rem.
  apply Z.rem_mod_nonneg; lia.
Qed.

Lemma prev_mod (n i : Z) :
  (0 < n)%Z -> (0 <= i < n)%Z -> Testimonials.prev n i = ((i - 1) mod n)%Z.
Proof.
  intros Hn Hi. unfold Testimonials.prev, Testimonials.js_rem.
  rewrite Z.rem_mod_nonneg by lia.
  replace (i - 1 + n)%Z with (i - 1 + 1 * n)%Z by lia.
  now rewrite Z.mod_add by lia.
Qed.

Lemma click_mod (n i : Z) (c : Testimonials.Click) :
  (0 < n)%Z -> (0 <= i < n)%Z ->
  Testimonials.click n i c
  = ((i + Testimonials.balance [c]) mod n)%Z.
Proof.
  intros Hn Hi. destruct c; simpl.
  - now apply next_mod.
  - rewrite prev_mod by assumption. f_equal.
Qed.

Lemma fold_click (n : Z) (cs : list Testimonials.Click) (i : Z) :
  (0 < n)%Z -> (0 <= i < n)%Z ->
  fold_left (Testimonials.click n) cs i
  = ((i + Testimonials.balance cs) mod n)%Z.
Proof.
  intros Hn. revert i. induction cs as [|c cs IH]; intros i Hi.
  - simpl. rewrite Z.add_0_r. symmetry. apply Z.mod_small. lia.
  - cbn [fold_left]. rewrite IH.
    + rewrite click_mod by assumption.
      rewrite Zplus_mod_idemp_l. f_equal.
      destruct c; simpl; lia.
    + rewrite click_mod by assumption. apply Z.mod_pos_bound. lia.
Qed.

(** X1. Whatever the number of testimonials, as long as there is one:
    after any clicks on the two buttons the index is that of a
    testimonial, namely the number of next clicks minus the number of
    previous clicks, modulo the number of testimonials; and each button
    undoes the other. *)
Theorem carousel_index (n : Z) (cs : list Testimonials.Click) :
  (0 < n)%Z ->
  (0 <= Testimonials.currentIndex n cs < n)%Z /\
  Testimonials.currentIndex n cs = (Testimonials.balance cs mod n)%Z /\
  Testimonials.prev n (Testimonials.next n (Testimonials.currentIndex n cs))
    = Testimonials.currentIndex n cs /\
  Testimonials.next n (Testimonials.prev n (Testimonials.currentIndex n cs))
    = Testimonials.currentIndex n cs.
Proof.
  intros Hn. unfold Testimonials.currentIndex.
  rewrite fold_click by lia. rewrite Z.add_0_l.
  set (i := (Testimonials.balance cs mod n)%Z).
  assert (Hi : (0 <= i < n)%Z) by (apply Z.mod_pos_bound; lia).
  split; [exact Hi|]. split; [reflexivity|].
  assert (Hnext : (0 <= Testimonials.next n i < n)%Z)
    by (rewrite next_mod by assumption; apply Z.mod_pos_bound; lia).
  assert (Hprev : (0 <= Testimonials.prev n i < n)%Z)
    by (rewrite prev_mod by assumption; apply Z.mod_pos_bound; lia).
  split.
  - rewrite prev_mod, next_mod by assumption.
    rewrite Zminus_mod_idemp_l. replace (i + 1 - 1)%Z with i by lia.
    apply Z.mod_small. exact Hi.
  - rewrite next_mod, prev_mod by assumption.
    rewrite Zplus_mod_idemp_l. replace (i - 1 + 1)%Z with i by lia.
    apply Z.mod_small. exact Hi.
Qed.

Lemma carousel_index_witness :
  let n := Testimonials.testimonials_length in
  let cs := [Testimonials.ClickPrev; Testimonials.ClickNext;
             Testimonials.ClickPrev; Testimonials.ClickPrev;
             Testimonials.ClickPrev] in
  Testimonials.currentIndex n cs = 1%Z /\
  Testimonials.currentIndex n cs = (Testimonials.balance cs mod n)%Z.
Proof.
  intros n cs.
  destruct (carousel_index n cs) as (_ & Hb & _); [reflexivity|].
  split; [reflexivity | exact Hb].
Defined.

(** ** ReachPeople *)

Lemma isOpen_spec (s : option nat) (j : nat) :
  ReachPeople.isOpen s j = true <-> s = Some j.
Proof.
  destruct s as [i|]; simpl.
  - rewrite Nat.eqb_eq. split; congruence.
  - split; discriminate.
Qed.

(** X2. A click on the header of item i opens it when it was closed and
    closes it when it was open, and leaves every other item closed; a
    second click on the same header undoes the first for item i, and the
    other items stay closed. *)
Theorem accordion_toggle (openIndex : option nat) (i j : nat) :
  ReachPeople.isOpen (ReachPeople.handleToggle openIndex i) j
    = (i =? j)%nat && negb (ReachPeople.isOpen openIndex i) /\
  ReachPeople.isOpen
    (ReachPeople.handleToggle (ReachPeople.handleToggle openIndex i) i) j
    = (i =? j)%nat && ReachPeople.isOpen openIndex i.
Proof.
  unfold ReachPeople.handleToggle.
  destruct (ReachPeople.isOpen openIndex i) eqn:E; simpl.
  - rewrite !andb_false_r, andb_true_r. split; reflexivity.
  - rewrite Nat.eqb_refl. simpl. rewrite andb_true_r, andb_false_r.
    split; reflexivity.
Qed.

(** ** The in-page links *)



(** ** useOnScreen over the life of its component *)

Lemma observe_sound (threshold : Q) (st : Tracker.State) (f : Q) :
  Hook.sound st ->
  Hook.sound (Tracker.observe threshold true st f) /\
  Tracker.isIntersecting (Tracker.observe threshold true st f)
  = Tracker.isIntersecting st || Qle_bool threshold f.
Proof.
  intros Hs. pose proof Hs as [Ho Hp]. unfold Tracker.observe.
  destruct (Tracker.observing st) eqn:Eo.
  - destruct (Qle_bool threshold f), (Tracker.previous st) as [[|]|] eqn:Ep;
      unfold Hook.sound, Tracker.callback; simpl;
      rewrite ?Eo, ?Ep, ?(Hp eq_refl), ?orb_false_r, ?orb_true_r;
      repeat split; intros; congruence.
  - rewrite (Ho eq_refl). split; [exact Hs | reflexivity].
Qed.

Lemma run_unmounted (r : bool) (h : Hook.t) (evs : list Hook.Event) :
  Hook.mounted h = false -> Hook.run r h evs = h.
Proof.
  intros Hm. induction evs as [|ev evs IH]; [reflexivity|].
  unfold Hook.run in *. cbn [fold_left]. unfold Hook.step at 2.
  rewrite Hm. exact IH.
Qed.

Lemma run_signal (h : Hook.t) (evs : list Hook.Event) :
  Hook.mounted h = true -> Hook.sound (Hook.state h) ->
  Tracker.isIntersecting (Hook.state (Hook.run true h evs))
  = Tracker.isIntersecting (Hook.state h) || Hook.reached (Hook.threshold h) evs.
Proof.
  revert h. induction evs as [|ev evs IH]; intros h Hm Hs.
  - simpl. now rewrite orb_false_r.
  - unfold Hook.run in *. cbn [fold_left]. unfold Hook.step at 2. rewrite Hm.
    destruct ev as [f | t' |]; cbn [Hook.reached].
    + destruct (observe_sound (Hook.threshold h) (Hook.state h) f Hs) as [Hs' Hi].
      rewrite IH by (reflexivity || exact Hs'). cbn [Hook.state Hook.threshold].
      now rewrite Hi, orb_assoc.
    + rewrite IH; cbn [Hook.state Hook.threshold Hook.mounted]; try reflexivity.
      * destruct (Qeq_bool (Hook.threshold h) t'); reflexivity.
      * destruct (Qeq_bool (Hook.threshold h) t'); [exact Hs|].
        split; simpl; intros; discriminate.
    + fold (Hook.run true (Hook.mk (Hook.threshold h) false
                                   (Hook.cleanup (Hook.state h))) evs).
      rewrite run_unmounted by reflexivity. simpl. now rewrite orb_false_r.
Qed.

Lemma run_null_ref (h : Hook.t) (evs : list Hook.Event) :
  Tracker.observing (Hook.state h) = false ->
  Tracker.isIntersecting (Hook.state (Hook.run false h evs))
  = Tracker.isIntersecting (Hook.state h).
Proof.
  revert h. induction evs as [|ev evs IH]; intros h Ho; [reflexivity|].
  unfold Hook.run in *. cbn [fold_left]. unfold Hook.step at 2.
  destruct (Hook.mounted h); [|now apply IH].
  destruct ev as [f | t' |]; rewrite IH; cbn [Hook.state]; try reflexivity.
  - unfold Tracker.observe. now rewrite Ho.
  - unfold Tracker.observe. now rewrite Ho.
  - destruct (Qeq_bool (Hook.threshold h) t'); reflexivity.
  - destruct (Qeq_bool (Hook.threshold h) t'); [exact Ho | reflexivity].
Qed.

Lemma reached_app (t : Q) (evs evs' : list Hook.Event) :
  Hook.reached t evs = true -> Hook.reached t (evs ++ evs') = true.
Proof.
  revert t. induction evs as [|ev evs IH]; intros t; [discriminate|].
  destruct ev as [f | t' |]; cbn [Hook.reached app].
  - rewrite !orb_true_iff. intros [H | H]; [now left | right; now apply IH].
  - apply IH.
  - discriminate.
Qed.

(** X4. Over the whole life of a component that uses the hook, with
    renders that change the threshold and with the unmount: when the ref
    is set, the value that the hook returns is true exactly when, while
    the component was mounted, some visible fraction reached the threshold
    then in force; it never goes back to false; and when the ref is not
    set it stays false whatever the region shows. *)
Theorem hook_signal (threshold : Q) (evs evs' : list Hook.Event) :
  Hook.signal threshold true evs = Hook.reached threshold evs /\
  Hook.signal threshold true (evs ++ evs')
    = Hook.signal threshold true evs || Hook.signal threshold true (evs ++ evs') /\
  Hook.signal threshold false evs = false.
Proof.
  assert (Hsig : forall l, Hook.signal threshold true l = Hook.reached threshold l).
  { intros l. unfold Hook.signal. rewrite run_signal; try reflexivity.
    split; simpl; intros; discriminate. }
  split; [apply Hsig|]. split.
  - rewrite !Hsig. destruct (Hook.reached threshold evs) eqn:E; [|reflexivity].
    now rewrite (reached_app _ _ evs' E).
  - unfold Hook.signal. now rewrite run_null_ref.
Qed.

(** ** What a handler writes to the trace *)

Lemma trace_exec (inst : nat) (e : Effect) (w : World) :
  trace (exec inst e w) = trace w.
Proof. apply exec_quiet. Qed.

Lemma trace_run_prog (inst : nat) (k : list Effect) (w : World) :
  trace (run_prog inst k w)
  = trace w ++ map (fun e => (now w, e)) (sync_part k).
Proof.
  revert w. induction k as [|e k IH]; intros w.
  - simpl. now rewrite app_nil_r.
  - assert (Hstep : trace (run_prog inst k (exec inst e (record e w)))
                    = trace w ++ (now w, e) :: map (fun x => (now w, x)) (sync_part k)).
    { rewrite IH, trace_exec, now_exec. cbn [record trace now with_trace].
      now rewrite <- app_assoc. }
    destruct e; cbn [run_prog sync_part map]; try exact Hstep.
    reflexivity.
Qed.

Lemma effects_run_prog (inst : nat) (k : list Effect) (w : World) :
  effects_of (run_prog inst k w) = effects_of w ++ sync_part k.
Proof.
  unfold effects_of. rewrite trace_run_prog, map_app, map_map. simpl.
  now rewrite map_id.
Qed.

Lemma pending_run_prog (inst : nat) (k : list Effect) (w : World) :
  count is_send (parked k) = 0 -> no_send_pending w ->
  no_send_pending (run_prog inst k w).
Proof.
  revert w. induction k as [|e k IH]; intros w Hk Hw; [exact Hw|].
  assert (Hstep : count is_send (parked k) = 0 ->
                  no_send_pending (run_prog inst k (exec inst e (record e w)))).
  { intros Hk'. apply IH; [exact Hk'|]. now apply exec_quiet. }
  destruct e; cbn [run_prog parked] in *; try (apply Hstep; exact Hk).
  apply pending_setTimeout; [exact Hw | exact Hk].
Qed.

(** The three ways through [handleSubmit]. *)
Lemma handleSubmit_cases (fd : FormData) :
  effects (handleSubmit fd) = [PreventDefault; missing_fields_toast] \/
  effects (handleSubmit fd) = [PreventDefault; invalid_email_toast] \/
  (valid_form fd /\
   effects (handleSubmit fd) =
     [PreventDefault; SetIsSending true; ConsoleLog fd; Delay 1500;
      SetIsSending false] ++
     (if res_success (value (sendEmail fd))
      then [ShowToast success (res_message (value (sendEmail fd))); OnClose]
      else [ShowToast error (res_message (value (sendEmail fd)))])).
Proof.
  destruct (string_dec (name fd) "") as [Hn | Hn];
    [left; apply handleSubmit_missing; tauto|].
  destruct (string_dec (email fd) "") as [He | He];
    [left; apply handleSubmit_missing; tauto|].
  destruct (string_dec (organization fd) "") as [Ho | Ho];
    [left; apply handleSubmit_missing; tauto|].
  destruct (validateEmail (email fd)) eqn:Hv.
  - right; right. split; [repeat split; assumption|].
    now apply handleSubmit_valid.
  - right; left. now apply handleSubmit_invalid.
Qed.

Lemma handleSubmit_sends (fd : FormData) :
  Forall sends_valid (sync_part (effects (handleSubmit fd))) /\
  count is_send (sync_part (effects (handleSubmit fd))) <= 1 /\
  count is_send (parked (effects (handleSubmit fd))) = 0.
Proof.
  destruct (handleSubmit_cases fd) as [-> | [-> | [Hv ->]]].
  - split; [repeat constructor | split; [cbv; lia | reflexivity]].
  - split; [repeat constructor | split; [cbv; lia | reflexivity]].
  - split; [|split].
    + simpl. repeat (apply Forall_cons; [first [exact I | exact Hv]|]).
      apply Forall_nil.
    + cbv. lia.
    + simpl. destruct (res_success (value (sendEmail fd))); reflexivity.
Qed.

Lemma run_timers_pending (fuel : nat) (target : N) (w : World) :
  no_send_pending w -> no_send_pending (run_timers fuel target w).
Proof.
  revert w. induction fuel as [|fuel IH]; intros w Hw; cbn [run_timers];
    destruct (next_due target (timers w)) as [t|] eqn:E; try exact Hw.
  apply next_due_In in E as [Hin _]. apply IH. now apply fire_quiet.
Qed.

(** What every event keeps: no parked continuation will call
    [sendEmail], and every call so far carried valid data. *)
Lemma step_sends (ev : Event) (w : World) :
  no_send_pending w -> Forall sends_valid (effects_of w) ->
  no_send_pending (step ev w) /\
  Forall sends_valid (effects_of (step ev w)) /\
  deliveries (step ev w) <= deliveries w + clicks [ev].
Proof.
  intros Hp Hv.
  assert (Hprog : forall inst k,
             Forall sends_valid (sync_part k) ->
             count is_send (parked k) = 0 ->
             no_send_pending (run_prog inst k w) /\
             Forall sends_valid (effects_of (run_prog inst k w)) /\
             deliveries (run_prog inst k w)
             = deliveries w + count is_send (sync_part k)).
  { intros inst k Hs Hk. split; [now apply pending_run_prog|].
    unfold deliveries. rewrite effects_run_prog. split.
    - apply Forall_app. now split.
    - unfold count. now rewrite filter_app, length_app. }
  destruct ev as [| | f v | | ms]; cbn [step clicks].
  - split; [now apply pending_setIsModalOpen|].
    unfold deliveries, effects_of. rewrite trace_setIsModalOpen.
    split; [exact Hv | lia].
  - destruct (modal w) as [m|]; [|split; [exact Hp | split; [exact Hv | lia]]].
    destruct (Hprog (instance m) [OnClose]) as (H1 & H2 & H3);
      [repeat constructor | reflexivity |].
    split; [exact H1 | split; [exact H2 | rewrite H3; cbv; lia]].
  - destruct (modal w) as [m|]; [|split; [exact Hp | split; [exact Hv | lia]]].
    destruct (Hprog (instance m) (effects (handleChange (formData m) f v)))
      as (H1 & H2 & H3); [repeat constructor | reflexivity |].
    split; [exact H1 | split; [exact H2 | rewrite H3; cbv; lia]].
  - destruct (modal w) as [m|] eqn:Em;
      [|split; [exact Hp | split; [exact Hv | lia]]].
    destruct (isSending m); [split; [exact Hp | split; [exact Hv | lia]]|].
    unfold form_onSubmit. rewrite Em.
    destruct (handleSubmit_sends (formData m)) as (Hs & Hc & Hk).
    destruct (Hprog (instance m) (effects (handleSubmit (formData m))) Hs Hk)
      as (H1 & H2 & H3).
    split; [exact H1 | split; [exact H2 | rewrite H3; lia]].
  - destruct (run_timers_quiet (pending_weight w) (now w + ms) w Hp)
      as (es & Htr & Hc).
    split; [now apply run_timers_pending|].
    unfold deliveries, effects_of. rewrite Htr, map_app. split.
    + apply Forall_app. split; [exact Hv|].
      apply Forall_forall. intros e He. destruct e; try exact I.
      exfalso. unfold count in Hc.
      assert (Hin : In (ConsoleLog data) (filter is_send (map snd es)))
        by (apply filter_In; now split).
      destruct (filter is_send (map snd es)); [destruct Hin | discriminate].
    + unfold count in *. rewrite filter_app, length_app. lia.
Qed.

Lemma run_sends (evs : list Event) (w : World) :
  no_send_pending w -> Forall sends_valid (effects_of w) ->
  no_send_pending (run evs w) /\
  Forall sends_valid (effects_of (run evs w)) /\
  deliveries (run evs w) <= deliveries w + clicks evs.
Proof.
  revert w. induction evs as [|ev evs IH]; intros w Hp Hv.
  - simpl. split; [exact Hp | split; [exact Hv | lia]].
  - rewrite run_cons.
    destruct (step_sends ev w Hp Hv) as (Hp' & Hv' & Hd').
    destruct (IH _ Hp' Hv') as (Hp'' & Hv'' & Hd'').
    split; [exact Hp'' | split; [exact Hv''|]].
    assert (Hc : clicks (ev :: evs) = clicks [ev] + clicks evs)
      by (destruct ev; reflexivity).
    lia.
Qed.

(** X5. Whatever the user does, in whatever order and at whatever times,
    every invocation of the delivery operation carries form data whose
    name, email and organization are not empty and whose email passes
    validateEmail. *)
Theorem only_valid_data_is_sent (evs : list Event) :
  Forall sends_valid (effects_of (run evs initial)).
Proof.
  apply run_sends; constructor.
Qed.

(** X6. The delivery operation is never invoked more often than the
    submit button was clicked, and the passing of time alone never
    invokes it: sendEmail is only ever called from the synchronous part
    of a submit. *)
Theorem deliveries_need_clicks (evs : list Event) (ms : N) :
  deliveries (run evs initial) <= clicks evs /\
  deliveries (step (Wait ms) (run evs initial)) = deliveries (run evs initial).
Proof.
  destruct (run_sends evs initial) as (Hp & _ & Hd);
    [constructor | constructor |].
  split; [exact Hd|].
  destruct (wait_quiet ms _ Hp) as (es & Htr & Hc).
  unfold deliveries, effects_of, count in *.
  rewrite Htr, map_app, filter_app, length_app. lia.
Qed.

(** ** Typing into the form *)

Lemma field_setField (fd : FormData) (f g : Field) (v : string) :
  field (setField fd f v) g = if Field_eqb f g then v else field fd g.
Proof. destruct f, g; reflexivity. Qed.

(** X7. Typing into an input of the open dialog replaces the value of
    that field and of no other; it leaves isSending, the notification
    and its timer, the deliveries in flight and the clock as they are:
    in particular it neither dismisses nor prolongs the notification. *)
Theorem typing_changes_one_field (w : World) (m : Modal) (f : Field) (v : string) :
  modal w = Some m ->
  modal (step (Input f v) w)
    = Some (mkModal (instance m) (setField (formData m) f v) (isSending m)) /\
  (forall g, field (setField (formData m) f v) g
             = if Field_eqb f g then v else field (formData m) g) /\
  isModalOpen (step (Input f v) w) = isModalOpen w /\
  toast (step (Input f v) w) = toast w /\
  toastTimer (step (Input f v) w) = toastTimer w /\
  timers (step (Input f v) w) = timers w /\
  now (step (Input f v) w) = now w /\
  deliveries (step (Input f v) w) = deliveries w.
Proof.
  intros Hm. cbn [step]. rewrite Hm.
  unfold handleChange, effects, emit. cbn [fst run_prog exec].
  unfold update_modal. cbn [record modal with_trace]. rewrite Hm, Nat.eqb_refl.
  split; [reflexivity|]. split; [intros g; apply field_setField|].
  unfold deliveries, effects_of, count. simpl.
  rewrite map_app, filter_app, length_app. simpl.
  repeat split. lia.
Qed.

Lemma typing_changes_one_field_witness :
  let fd := mkFormData "Ada" "bad-address" "Orbis" "" in
  let w := step SubmitClick (editing 0 fd) in
  modal (step (Input FEmail "ada@orbis.ng") w)
    = Some (mkModal 0 (mkFormData "Ada" "ada@orbis.ng" "Orbis" "") false) /\
  toast (step (Input FEmail "ada@orbis.ng") w)
    = Some (mkToast "Please enter a valid email address." error) /\
  timers (step (Input FEmail "ada@orbis.ng") w) = [mkTimer 0 5000 AutoClose].
Proof.
  intros fd w.
  destruct (typing_changes_one_field w (mkModal 0 fd false) FEmail "ada@orbis.ng")
    as (Hm & _ & _ & Ht & _ & Hts & _); [vm_compute; reflexivity|].
  split; [exact Hm|]. split.
  - rewrite Ht. vm_compute. reflexivity.
  - rewrite Hts. vm_compute. reflexivity.
Defined.

(** X8. The inputs stay editable while a delivery is in flight, and what
    is typed then does not reach that delivery: sendEmail was called
    once, with the data of the moment of the submit, and the notification
    is the one for that data.  After a failure the dialog shows the
    edited value, not the submitted one. *)
Theorem edits_while_sending (t0 : N) (fd : FormData) (f : Field) (v : string) :
  name fd <> "" -> email fd <> "" -> organization fd <> "" ->
  validateEmail (email fd) = true ->
  let w0 := editing t0 fd in
  let w := run [SubmitClick; Input f v; Wait 1500] w0 in
  let r := value (sendEmail fd) in
  filter is_send (effects_since w0 w) = [ConsoleLog fd] /\
  toast w = Some (mkToast (res_message r)
                          (if res_success r then success else error)) /\
  modal w = (if res_success r then None
             else Some (mkModal 0 (setField fd f v) false)).
Proof.
  intros Hn He Ho Hv w0 w r. subst w w0 r.
  rewrite submission_shift, (editing_shift t0 fd), shift_effects_since.
  rewrite !run_cons, (sending_0 fd Hn He Ho Hv), editing_0.
  clear Hn He Ho Hv.
  generalize (res_message (value (sendEmail fd))) as msg.
  generalize (res_success (value (sendEmail fd))) as ok.
  intros ok msg. destruct fd as [n e o x], f, ok; vm_compute; repeat split.
Qed.

Lemma edits_while_sending_witness :
  let fd := mkFormData "Ada" "test@fail.com" "Orbis" "" in
  let w0 := editing 0 fd in
  let w := run [SubmitClick; Input FEmail "test@ok.com"; Wait 1500] w0 in
  filter is_send (effects_since w0 w) = [ConsoleLog fd] /\
  toast w = Some (mkToast "Failed to send. Please try again." error) /\
  modal w = Some (mkModal 0 (mkFormData "Ada" "test@ok.com" "Orbis" "") false).
Proof.
  intros fd w0 w.
  destruct (edits_while_sending 0 fd FEmail "test@ok.com") as (H1 & H2 & H3);
    [ discriminate | discriminate | discriminate | vm_compute; reflexivity | ].
  exact (conj H1 (conj H2 H3)).
Defined.

(** ** Closing the dialog while a delivery is in flight *)

Lemma run_one (ev : Event) (w : World) : run [ev] w = step ev w.
Proof. reflexivity. Qed.

Lemma run_timers_fire (fuel : nat) (target : N) (w : World) (t : Timer) :
  next_due target (timers w) = Some t ->
  run_timers (S fuel) target w = run_timers fuel target (fire t w).
Proof. intros H. cbn [run_timers]. now rewrite H. Qed.

Lemma closed_while_sending_0 (fd : FormData) (dt : N) (ty : ToastType)
    (msg : string) (tl : list Effect) :
  (dt < 1500)%N -> tl = [] \/ tl = [OnClose] ->
  run [Wait dt; DialogClose; Wait (1500 - dt)]
      (mkWorld 0 true None (Some (mkModal 0 fd true)) None
         [mkTimer 0 1500 (Resume 0 (SetIsSending false :: ShowToast ty msg :: tl))]
         1 1
         (trace (editing 0 fd) ++
          [(0%N, PreventDefault); (0%N, SetIsSending true);
           (0%N, ConsoleLog fd); (0%N, Delay 1500)]))
  = mkWorld 1500 false (Some (mkToast msg ty)) None (Some 1)
      [mkTimer 1 6500 AutoClose] 2 1
      (trace (editing 0 fd) ++
       [(0%N, PreventDefault); (0%N, SetIsSending true);
        (0%N, ConsoleLog fd); (0%N, Delay 1500); (dt, OnClose)] ++
       map (fun e => (1500%N, e))
           (SetIsSending false :: ShowToast ty msg :: tl)).
Proof.
  intros Hdt Htl. rewrite run_cons.
  rewrite <- (run_one (Wait dt)), sending_stays by (reflexivity || (cbn [waited]; lia)).
  replace (0 + waited [Wait dt])%N with dt by (cbn [waited]; lia).
  rewrite run_cons, editing_0. destruct fd as [n e o x].
  set (t := mkTimer 0 1500 (Resume 0 (SetIsSending false :: ShowToast ty msg :: tl))).
  match goal with
  | |- context [step DialogClose ?W] =>
      remember (step DialogClose W) as w2 eqn:Hw2
  end.
  vm_compute in Hw2. rewrite run_one. cbn [step].
  assert (Hnow : now w2 = dt) by (rewrite Hw2; reflexivity).
  rewrite Hnow. replace (dt + (1500 - dt))%N with 1500%N by lia.
  assert (Hfuel : exists k, pending_weight w2 = S k).
  { rewrite Hw2. destruct Htl as [-> | ->]; eexists; vm_compute; reflexivity. }
  destruct Hfuel as [k ->].
  assert (Hnext : next_due 1500 (timers w2) = Some t)
    by (rewrite Hw2; vm_compute; reflexivity).
  rewrite (run_timers_fire _ _ _ _ Hnext).
  remember (fire t w2) as w3 eqn:Hw3.
  unfold fire in Hw3. subst t. cbn [task timer_id due] in Hw3.
  rewrite Hnow, (N.max_r dt 1500) in Hw3 by lia. rewrite Hw2 in Hw3.
  clear Hnext Hnow Hw2.
  destruct Htl as [-> | ->]; vm_compute in Hw3; rewrite Hw3;
    (rewrite run_timers_idle by (vm_compute; reflexivity));
    vm_compute; reflexivity.
Qed.

(** X9. Closing the dialog while a delivery is in flight, at any moment
    before it resolves, cancels nothing: 1500 ms after the submit the
    delivery resolves and its notification is shown all the same, over a
    page whose dialog is closed. *)
Theorem closing_does_not_cancel (t0 dt : N) (fd : FormData) :
  name fd <> "" -> email fd <> "" -> organization fd <> "" ->
  validateEmail (email fd) = true ->
  (dt < 1500)%N ->
  let w0 := editing t0 fd in
  let w := run [SubmitClick; Wait dt; DialogClose; Wait (1500 - dt)] w0 in
  let r := value (sendEmail fd) in
  toast w = Some (mkToast (res_message r)
                          (if res_success r then success else error)) /\
  filter is_toast (effects_since w0 w)
    = [ShowToast (if res_success r then success else error) (res_message r)] /\
  count is_send (effects_since w0 w) = 1 /\
  isModalOpen w = false /\
  modal w = None.
Proof.
  intros Hn He Ho Hv Hdt w0 w r. subst w w0 r.
  rewrite submission_shift, (editing_shift t0 fd), shift_effects_since.
  rewrite run_cons, (sending_0 fd Hn He Ho Hv).
  generalize (res_message (value (sendEmail fd))) as msg. intros msg.
  destruct (res_success (value (sendEmail fd))).
  - rewrite (closed_while_sending_0 fd dt success msg [OnClose])
      by (assumption || (right; reflexivity)).
    erewrite effects_since_app; [|reflexivity]. repeat split.
  - rewrite (closed_while_sending_0 fd dt error msg [])
      by (assumption || (left; reflexivity)).
    erewrite effects_since_app; [|reflexivity]. repeat split.
Qed.

Lemma closing_does_not_cancel_witness :
  let fd := mkFormData "Ada" "test@ok.com" "Orbis" "" in
  let w := run [SubmitClick; Wait 400; DialogClose; Wait 1100] (editing 0 fd) in
  toast w = Some (mkToast "Successful, we'll get back to you soon!" success) /\
  modal w = None.
Proof.
  intros fd w.
  destruct (closing_does_not_cancel 0 400 fd) as (Ht & _ & _ & _ & Hm);
    [ discriminate | discriminate | discriminate
    | vm_compute; reflexivity | reflexivity | ].
  exact (conj Ht Hm).
Defined.

(** ** Closing and reopening the dialog *)

Lemma render_modal (w : World) :
  modal (render w)
  = match isModalOpen w, modal w with
    | true, None => Some (mkModal (nextInstance w) emptyForm false)
    | false, Some _ => None
    | _, _ => modal w
    end.
Proof.
  unfold render. destruct (render_Toast_frame (render_DemoModal w))
    as (_ & _ & _ & -> & _).
  unfold render_DemoModal.
  destruct (isModalOpen w) eqn:Eo, (modal w) eqn:Em; cbn [modal with_modal
    with_nextInstance]; rewrite ?Em; reflexivity.
Qed.

Lemma nextInstance_render_Toast (w : World) :
  nextInstance (render_Toast w) = nextInstance w.
Proof.
  unfold render_Toast. destruct (toastTimer w); simpl; destruct (toast w);
    reflexivity.
Qed.

Lemma nextInstance_render_closed (w : World) :
  isModalOpen w = false -> nextInstance (render w) = nextInstance w.
Proof.
  intros Ho. unfold render. rewrite nextInstance_render_Toast.
  unfold render_DemoModal. rewrite Ho. destruct (modal w); reflexivity.
Qed.

(** X10. Closing the dialog and opening it again gives a new dialog with
    four empty fields and an enabled submit button, whatever had been
    typed and even if a delivery was in flight; notification and count
    of deliveries are as before. *)
Theorem reopening_resets_form (w : World) (m : Modal) :
  modal w = Some m -> isModalOpen w = true ->
  modal (run [DialogClose; BookDemoClick] w)
    = Some (mkModal (nextInstance w) emptyForm false) /\
  isModalOpen (run [DialogClose; BookDemoClick] w) = true /\
  toast (run [DialogClose; BookDemoClick] w) = toast w /\
  deliveries (run [DialogClose; BookDemoClick] w) = deliveries w.
Proof.
  intros Hm Ho.
  set (w1 := with_isModalOpen false (record OnClose w)).
  set (w2 := with_isModalOpen true (render w1)).
  assert (Hc : isModalOpen (render w1) = false)
    by now destruct (render_frame w1) as (_ & -> & _).
  assert (Hrun : run [DialogClose; BookDemoClick] w = render w2).
  { rewrite run_cons, run_one. cbn [step]. rewrite Hm. cbn [run_prog exec].
    assert (H1 : setIsModalOpen false (record OnClose w) = render w1).
    { unfold setIsModalOpen. cbn [record isModalOpen with_trace].
      now rewrite Ho. }
    rewrite H1. unfold setIsModalOpen. now rewrite Hc. }
  rewrite Hrun.
  assert (Hm1 : modal (render w1) = None).
  { rewrite render_modal. subst w1. cbn [isModalOpen modal with_isModalOpen
                                          record with_trace]. now rewrite Hm. }
  split.
  { rewrite render_modal. subst w2. cbn [isModalOpen modal with_isModalOpen
                                          nextInstance].
    rewrite Hm1, nextInstance_render_closed by reflexivity. reflexivity. }
  destruct (render_frame w2) as (_ & -> & -> & Htr).
  split; [reflexivity|]. split.
  - subst w2. cbn [toast with_isModalOpen].
    now destruct (render_frame w1) as (_ & _ & -> & _).
  - unfold deliveries, effects_of. rewrite Htr. subst w2.
    cbn [trace with_isModalOpen].
    destruct (render_frame w1) as (_ & _ & _ & ->). subst w1.
    cbn [trace with_isModalOpen record with_trace].
    unfold count. rewrite map_app, filter_app, length_app. simpl. lia.
Qed.

Lemma reopening_resets_form_witness :
  let fd := mkFormData "Ada" "test@ok.com" "Orbis" "hello" in
  let w := step SubmitClick (editing 0 fd) in
  modal w = Some (mkModal 0 fd true) /\
  modal (run [DialogClose; BookDemoClick] w) = Some (mkModal 1 emptyForm false).
Proof.
  intros fd w.
  destruct (reopening_resets_form w (mkModal 0 fd true)) as (Hm & _);
    [vm_compute; reflexivity | vm_compute; reflexivity |].
  split; [vm_compute; reflexivity | exact Hm].
Defined.

Lemma run_snoc (evs : list Event) (ev : Event) (w : World) :
  run (evs ++ [ev]) w = step ev (run evs w).
Proof. unfold run. now rewrite fold_left_app. Qed.

(** X11. The isSending guard belongs to one dialog: when the dialog is
    closed and opened again while a delivery is in flight, the new
    dialog accepts a submit at once, and the delivery operation is
    invoked a second time while the first invocation has not resolved;
    both resolve, each with its own notification. *)
Theorem guard_is_per_dialog (t0 : N) (fd : FormData) :
  name fd <> "" -> email fd <> "" -> organization fd <> "" ->
  validateEmail (email fd) = true ->
  let w0 := editing t0 fd in
  let again := [DialogClose; BookDemoClick; Input FName (name fd);
                Input FEmail (email fd);
                Input FOrganization (organization fd);
                Input FMessage (message fd); SubmitClick] in
  let w := run (SubmitClick :: again) w0 in
  filter is_send (effects_since w0 w) = [ConsoleLog fd; ConsoleLog fd] /\
  List.length (in_flight w) = 2 /\
  modal w = Some (mkModal 1 fd true) /\
  count is_toast (effects_since w0 (step (Wait 1500) w)) = 2 /\
  in_flight (step (Wait 1500) w) = [].
Proof.
  intros Hn He Ho Hv w0 again w. subst w again w0.
  assert (Hshift : forall w', step (Wait 1500) (shift t0 w')
                              = shift t0 (step (Wait 1500) w'))
    by (intros; apply shift_step).
  rewrite submission_shift, (editing_shift t0 fd), Hshift, !shift_effects_since.
  clear Hshift.
  pose proof (handleSubmit_valid fd Hn He Ho Hv) as Hk.
  pose proof (sending_0 fd Hn He Ho Hv) as H1.
  rewrite run_cons, H1. clear H1.
  match goal with
  | |- context [run ?evs ?W] =>
      replace (run evs W) with (run (removelast evs ++ [SubmitClick]) W)
        by reflexivity
  end.
  rewrite run_snoc. cbn [removelast].
  rewrite editing_0 in *.
  revert Hk. generalize (value (sendEmail fd)) as r. intros [ok msg] Hk.
  cbn [res_success res_message] in *.
  destruct fd as [n e o x]. cbn [name email organization message] in *.
  match goal with
  | |- context [step SubmitClick ?W] => remember W as w2 eqn:Hw2
  end.
  destruct ok; vm_compute in Hw2;
    rewrite (submit_enabled w2 (mkModal 1 (mkFormData n e o x) false))
      by (try rewrite Hw2; reflexivity);
    cbn [formData instance]; rewrite Hk, Hw2; vm_compute; repeat split.
Qed.

Lemma guard_is_per_dialog_witness :
  let fd := mkFormData "Ada" "test@ok.com" "Orbis" "" in
  let w0 := editing 0 fd in
  let w := run [SubmitClick; DialogClose; BookDemoClick; Input FName "Ada";
                Input FEmail "test@ok.com"; Input FOrganization "Orbis";
                Input FMessage ""; SubmitClick] w0 in
  filter is_send (effects_since w0 w) = [ConsoleLog fd; ConsoleLog fd] /\
  List.length (in_flight w) = 2.
Proof.
  intros fd w0 w.
  destruct (guard_is_per_dialog 0 fd) as (H1 & H2 & _);
    [ discriminate | discriminate | discriminate | vm_compute; reflexivity | ].
  exact (conj H1 H2).
Defined.

(** X12. onClose closes the dialog that is open when it is called, not
    the one that was submitted: when the dialog is closed and opened
    again while a delivery is in flight, a successful resolution closes
    the new dialog, and what was typed into it is gone; a failed one
    leaves it open with what was typed. *)
Theorem old_success_closes_new_dialog (t0 : N) (fd : FormData) (f : Field)
    (v : string) :
  name fd <> "" -> email fd <> "" -> organization fd <> "" ->
  validateEmail (email fd) = true ->
  let w0 := editing t0 fd in
  let typed := run [SubmitClick; DialogClose; BookDemoClick; Input f v] w0 in
  let w := step (Wait 1500) typed in
  let r := value (sendEmail fd) in
  modal typed = Some (mkModal 1 (setField emptyForm f v) false) /\
  modal w = (if res_success r then None
             else Some (mkModal 1 (setField emptyForm f v) false)) /\
  isModalOpen w = negb (res_success r) /\
  toast w = Some (mkToast (res_message r)
                          (if res_success r then success else error)).
Proof.
  intros Hn He Ho Hv w0 typed w r. subst w typed w0 r.
  rewrite submission_shift, shift_step.
  rewrite !run_cons, (sending_0 fd Hn He Ho Hv), editing_0.
  clear Hn He Ho Hv.
  generalize (res_message (value (sendEmail fd))) as msg.
  generalize (res_success (value (sendEmail fd))) as ok.
  intros ok msg. destruct fd as [n e o x], f, ok; vm_compute; repeat split.
Qed.

Lemma old_success_closes_new_dialog_witness :
  let fd := mkFormData "Ada" "test@ok.com" "Orbis" "" in
  let typed := run [SubmitClick; DialogClose; BookDemoClick;
                    Input FName "Grace"] (editing 0 fd) in
  modal typed = Some (mkModal 1 (mkFormData "Grace" "" "" "") false) /\
  modal (step (Wait 1500) typed) = None.
Proof.
  intros fd typed.
  destruct (old_success_closes_new_dialog 0 fd FName "Grace") as (H1 & H2 & _);
    [ discriminate | discriminate | discriminate | vm_compute; reflexivity | ].
  exact (conj H1 H2).
Defined.

(** ** The timers of the page, in every state it can reach *)

Lemma ids_filter (keep : Timer -> bool) (ts : list Timer) :
  NoDup (map timer_id ts) -> NoDup (map timer_id (filter keep ts)).
Proof.
  induction ts as [|t ts IH]; simpl; intros H; [constructor|].
  inversion H as [|x xs Hnin Hnd]; subst.
  destruct (keep t); simpl; [|now apply IH].
  constructor; [|now apply IH].
  intros Hin. apply Hnin. apply in_map_iff in Hin as (b & Hb & Hin).
  apply filter_In in Hin as [Hin _]. apply in_map_iff. now exists b.
Qed.

Lemma autos_nil (ts : list Timer) :
  Forall (fun t => is_auto t = false) ts -> filter is_auto ts = [].
Proof.
  induction 1 as [|t ts Ht _ IH]; simpl; [reflexivity|]. now rewrite Ht.
Qed.

(** After the cleanup of Toast's effect no dismissal is pending. *)
Lemma cleanup_ok (w : World) :
  timers_ok w ->
  let w1 := match toastTimer w with
            | Some id => with_toastTimer None (clearTimeout id w)
            | None => w
            end in
  Forall (fun t => timer_ok w1 t /\ is_auto t = false) (timers w1) /\
  NoDup (map timer_id (timers w1)) /\
  nextTimer w1 = nextTimer w /\ now w1 = now w /\ toast w1 = toast w /\
  toastTimer w1 = None.
Proof.
  intros [Hok Hnd]. destruct (toastTimer w) as [id|] eqn:Et; cbn zeta.
  - split; [|split; [now apply ids_filter | repeat split]].
    apply Forall_forall. intros t Ht. cbn [timers with_toastTimer clearTimeout
                                            with_timers] in Ht.
    apply filter_In in Ht as [Hin Hid].
    rewrite Forall_forall in Hok. specialize (Hok t Hin).
    destruct Hok as [Hfresh Htask]. unfold timer_ok, is_auto.
    cbn [nextTimer now toastTimer with_toastTimer clearTimeout with_timers].
    destruct (task t).
    + destruct Htask as [Heq _]. rewrite Et in Heq. injection Heq as ->.
      rewrite Nat.eqb_refl in Hid. discriminate.
    + repeat split; tauto.
  - split; [|split; [exact Hnd | repeat split; exact Et]].
    apply Forall_forall. intros t Ht.
    rewrite Forall_forall in Hok. specialize (Hok t Ht).
    split; [exact Hok|]. destruct Hok as [_ Htask]. unfold is_auto.
    destruct (task t); [|reflexivity].
    destruct Htask as [Heq _]. rewrite Et in Heq. discriminate.
Qed.

Lemma render_Toast_ok (w : World) :
  timers_ok w -> page_ok (render_Toast w).
Proof.
  intros Hok. pose proof (cleanup_ok w Hok) as H. cbn zeta in H.
  unfold render_Toast.
  set (w1 := match toastTimer w with
             | Some id => with_toastTimer None (clearTimeout id w)
             | None => w
             end) in *.
  destruct H as (Hts & Hnd & Hnext & Hnow & Htoast & Htt).
  destruct (toast w1) as [x|] eqn:Ex.
  - unfold setTimeout. cbn [fst snd]. split; [split|].
    + cbn [timers with_toastTimer with_nextTimer with_timers].
      apply Forall_app. split.
      * apply Forall_forall. intros t Ht. rewrite Forall_forall in Hts.
        destruct (Hts t Ht) as [[Hfresh Htask] Hna]. unfold timer_ok.
        cbn [nextTimer now toastTimer with_toastTimer with_nextTimer with_timers].
        split; [lia|]. unfold is_auto in Hna.
        destruct (task t); [discriminate | exact Htask].
      * constructor; [|constructor]. unfold timer_ok.
        cbn [timer_id task due nextTimer now toastTimer with_toastTimer
             with_nextTimer with_timers].
        split; [lia | split; [reflexivity | lia]].
    + cbn [timers with_toastTimer with_nextTimer with_timers].
      rewrite map_app. cbn [map timer_id].
      apply NoDup_app; [exact Hnd | repeat constructor; intros [] |].
      intros id Hin [<- | []]. apply in_map_iff in Hin as (t & Hid & Hin).
      rewrite Forall_forall in Hts. destruct (Hts t Hin) as [[Hfresh _] _]. lia.
    + unfold toast_armed.
      cbn [toast timers with_toastTimer with_nextTimer with_timers].
      rewrite Ex. eexists. split; [apply in_or_app; right; now left | reflexivity].
  - split; [split; [|exact Hnd]|].
    + eapply Forall_impl; [|exact Hts]. intros t [Ht _]. exact Ht.
    + unfold toast_armed. rewrite Ex. unfold autos. apply autos_nil.
      eapply Forall_impl; [|exact Hts]. intros t [_ Ht]. exact Ht.
Qed.

Lemma timers_ok_frame (w w' : World) :
  timers w' = timers w -> nextTimer w' = nextTimer w ->
  toastTimer w' = toastTimer w -> now w' = now w ->
  timers_ok w -> timers_ok w'.
Proof.
  intros Hts Hn Htt Hnow [Hok Hnd]. unfold timers_ok, timer_ok in *.
  rewrite Hts, Hn, Htt, Hnow. now split.
Qed.

Lemma page_ok_frame (w w' : World) :
  timers w' = timers w -> nextTimer w' = nextTimer w ->
  toastTimer w' = toastTimer w -> now w' = now w -> toast w' = toast w ->
  page_ok w -> page_ok w'.
Proof.
  intros Hts Hn Htt Hnow Ht [Hok Ha]. split.
  - now apply (timers_ok_frame w).
  - unfold toast_armed, autos in *. now rewrite Ht, Hts.
Qed.

Lemma render_ok (w : World) : timers_ok w -> page_ok (render w).
Proof.
  intros Hok. unfold render. apply render_Toast_ok.
  apply (timers_ok_frame w); try exact Hok;
    unfold render_DemoModal; destruct (isModalOpen w), (modal w); reflexivity.
Qed.

Lemma setToast_ok (v : option ToastState) (w : World) :
  page_ok w -> page_ok (setToast v w).
Proof.
  intros [Hok Ha]. unfold setToast.
  destruct v, (toast w) eqn:Et; try (apply render_ok;
    now apply (timers_ok_frame w)).
  split; [exact Hok | exact Ha].
Qed.

Lemma setIsModalOpen_ok (b : bool) (w : World) :
  page_ok w -> page_ok (setIsModalOpen b w).
Proof.
  intros Hp. unfold setIsModalOpen.
  destruct (Bool.eqb (isModalOpen w) b); [exact Hp|].
  apply render_ok. destruct Hp as [Hok _]. now apply (timers_ok_frame w).
Qed.

Lemma update_modal_ok (inst : nat) (f : Modal -> Modal) (w : World) :
  page_ok w -> page_ok (update_modal inst f w).
Proof.
  intros Hp. unfold update_modal. destruct (modal w) as [m|]; [|exact Hp].
  destruct (instance m =? inst)%nat; [|exact Hp].
  now apply (page_ok_frame w).
Qed.

Lemma exec_ok (inst : nat) (e : Effect) (w : World) :
  page_ok w -> page_ok (exec inst e w).
Proof.
  intros Hp. destruct e; cbn [exec]; try exact Hp.
  - now apply update_modal_ok.
  - now apply update_modal_ok.
  - now apply setToast_ok.
  - now apply setIsModalOpen_ok.
Qed.

Lemma record_ok (e : Effect) (w : World) : page_ok w -> page_ok (record e w).
Proof. now apply page_ok_frame. Qed.

Lemma park_ok (inst : nat) (k : list Effect) (ms : N) (w : World) :
  (ms <= 1500)%N -> delay_free k -> page_ok w ->
  page_ok (snd (setTimeout (Resume inst k) ms w)).
Proof.
  intros Hms Hk [[Hok Hnd] Ha]. unfold setTimeout. cbn [snd].
  split; [split|].
  - cbn [timers with_nextTimer with_timers]. apply Forall_app. split.
    + eapply Forall_impl; [|exact Hok]. intros t [Hf Ht]. unfold timer_ok.
      cbn [nextTimer now toastTimer with_nextTimer with_timers].
      split; [lia | exact Ht].
    + constructor; [|constructor]. unfold timer_ok.
      cbn [timer_id task due nextTimer now with_nextTimer with_timers].
      split; [lia | split; [lia | exact Hk]].
  - cbn [timers with_nextTimer with_timers]. rewrite map_app. cbn [map timer_id].
    apply NoDup_app; [exact Hnd | repeat constructor; intros [] |].
    intros id Hin [<- | []]. apply in_map_iff in Hin as (t & Hid & Hin).
    rewrite Forall_forall in Hok. destruct (Hok t Hin) as [Hfresh _]. lia.
  - unfold toast_armed, autos in *.
    cbn [toast timers with_nextTimer with_timers].
    destruct (toast w) as [x|].
    + destruct Ha as (a & Hin & Hauto). exists a.
      split; [apply in_or_app; now left | exact Hauto].
    + rewrite filter_app, Ha. reflexivity.
Qed.

Lemma suspends_once_tail (e : Effect) (k : list Effect) :
  is_delay e = false -> suspends_once (e :: k) -> suspends_once k.
Proof.
  intros He [Hall Hp]. split; [now inversion Hall|].
  destruct e; try exact Hp. discriminate He.
Qed.

Lemma run_prog_ok (inst : nat) (k : list Effect) (w : World) :
  suspends_once k -> page_ok w -> page_ok (run_prog inst k w).
Proof.
  revert w. induction k as [|e k IH]; intros w Hk Hp; [exact Hp|].
  assert (Hstep : is_delay e = false ->
                  page_ok (run_prog inst k (exec inst e (record e w)))).
  { intros He. apply IH; [now apply (suspends_once_tail e)|].
    now apply exec_ok, record_ok. }
  destruct e; cbn [run_prog]; try (apply Hstep; reflexivity).
  destruct Hk as [Hall Hfree]. inversion Hall as [|x xs Hms _]; subst.
  apply park_ok; [exact Hms | exact Hfree | now apply record_ok].
Qed.

Lemma delay_free_suspends_once (k : list Effect) :
  delay_free k -> suspends_once k.
Proof.
  unfold suspends_once, delay_free. induction k as [|e k IH]; intros H.
  - split; [constructor | reflexivity].
  - cbn [forallb] in H. apply andb_true_iff in H as [He Hk].
    destruct (IH Hk) as [Hall Hp].
    destruct e; try discriminate He; (split; [constructor; [exact I | exact Hall]
                                             | exact Hp]).
Qed.

Lemma same_id_same_timer (ts : list Timer) (a b : Timer) :
  NoDup (map timer_id ts) -> In a ts -> In b ts ->
  timer_id a = timer_id b -> a = b.
Proof.
  induction ts as [|t ts IH]; intros Hnd Ha Hb Hid; [destruct Ha|].
  inversion Hnd as [|x xs Hnin Hnd']; subst.
  destruct Ha as [-> | Ha], Hb as [-> | Hb]; try reflexivity.
  - exfalso. apply Hnin. rewrite Hid. now apply in_map.
  - exfalso. apply Hnin. rewrite <- Hid. now apply in_map.
  - now apply IH.
Qed.

Lemma fire_ok (t : Timer) (w : World) :
  In t (timers w) -> page_ok w -> page_ok (fire t w).
Proof.
  intros Hin [[Hok Hnd] Ha]. unfold fire.
  set (w1 := with_now (N.max (now w) (due t)) (clearTimeout (timer_id t) w)).
  assert (Hok1 : timers_ok w1).
  { split.
    - subst w1. cbn [timers with_now clearTimeout with_timers].
      apply Forall_forall. intros u Hu. apply filter_In in Hu as [Hu _].
      rewrite Forall_forall in Hok. destruct (Hok u Hu) as [Hf Ht].
      unfold timer_ok. cbn [nextTimer now toastTimer with_now clearTimeout
                            with_timers].
      split; [exact Hf|]. destruct (task u).
      + split; [tauto | lia].
      + split; [lia | tauto].
    - subst w1. cbn [timers with_now clearTimeout with_timers].
      now apply ids_filter. }
  pose proof Hok as Hok'. rewrite Forall_forall in Hok'.
  destruct (Hok' t Hin) as [_ Htask].
  destruct (task t) as [|inst k] eqn:Et.
  - (* the dismissal *)
    unfold setToast. destruct (toast w1) eqn:Ex.
    + apply render_ok. now apply (timers_ok_frame w1).
    + exfalso. unfold toast_armed in Ha.
      assert (Hx : toast w = None) by exact Ex. rewrite Hx in Ha.
      assert (Hauto : In t (autos w)).
      { apply filter_In. split; [exact Hin|]. unfold is_auto. now rewrite Et. }
      rewrite Ha in Hauto. destruct Hauto.
  - (* a parked continuation *)
    apply run_prog_ok; [apply delay_free_suspends_once; tauto|].
    split; [exact Hok1|]. unfold toast_armed, autos in *.
    change (toast w1) with (toast w).
    subst w1. cbn [timers with_now clearTimeout with_timers].
    destruct (toast w).
    + destruct Ha as (a & Ha & Hauto). exists a. split; [|exact Hauto].
      apply filter_In. split; [exact Ha|].
      destruct (timer_id a =? timer_id t)%nat eqn:E; [|reflexivity].
      apply Nat.eqb_eq in E.
      assert (a = t) by now apply (same_id_same_timer (timers w)).
      subst a. unfold is_auto in Hauto. rewrite Et in Hauto. discriminate.
    + apply autos_nil. apply Forall_forall. intros u Hu.
      apply filter_In in Hu as [Hu _].
      destruct (is_auto u) eqn:E; [|reflexivity].
      assert (Hin' : In u (filter is_auto (timers w)))
        by (apply filter_In; now split).
      rewrite Ha in Hin'. destruct Hin'.
Qed.

Lemma run_timers_ok (fuel : nat) (target : N) (w : World) :
  page_ok w -> page_ok (run_timers fuel target w).
Proof.
  revert w. induction fuel as [|fuel IH]; intros w Hp; cbn [run_timers];
    destruct (next_due target (timers w)) as [t|] eqn:E; try exact Hp.
  - destruct Hp as [[Hok Hnd] Ha]. split; [split; [|exact Hnd]|exact Ha].
    eapply Forall_impl; [|exact Hok]. intros u [Hf Ht]. unfold timer_ok.
    cbn [nextTimer now toastTimer with_now]. split; [exact Hf|].
    destruct (task u); [split; [tauto | lia] | split; [lia | tauto]].
  - apply IH. apply next_due_In in E as [Hin _]. now apply fire_ok.
  - destruct Hp as [[Hok Hnd] Ha]. split; [split; [|exact Hnd]|exact Ha].
    eapply Forall_impl; [|exact Hok]. intros u [Hf Ht]. unfold timer_ok.
    cbn [nextTimer now toastTimer with_now]. split; [exact Hf|].
    destruct (task u); [split; [tauto | lia] | split; [lia | tauto]].
Qed.

Lemma handleSubmit_suspends_once (fd : FormData) :
  suspends_once (effects (handleSubmit fd)).
Proof.
  destruct (handleSubmit_cases fd) as [-> | [-> | [_ ->]]].
  - apply delay_free_suspends_once. reflexivity.
  - apply delay_free_suspends_once. reflexivity.
  - destruct (res_success (value (sendEmail fd))); split;
      try reflexivity; simpl; repeat constructor; cbv; discriminate.
Qed.

Lemma step_ok (ev : Event) (w : World) : page_ok w -> page_ok (step ev w).
Proof.
  intros Hp. destruct ev as [| | f v | | ms]; cbn [step].
  - now apply setIsModalOpen_ok.
  - destruct (modal w) as [m|]; [|exact Hp].
    apply run_prog_ok; [apply delay_free_suspends_once; reflexivity | exact Hp].
  - destruct (modal w) as [m|]; [|exact Hp].
    apply run_prog_ok; [apply delay_free_suspends_once; reflexivity | exact Hp].
  - destruct (modal w) as [m|] eqn:Em; [|exact Hp].
    destruct (isSending m); [exact Hp|]. unfold form_onSubmit. rewrite Em.
    apply run_prog_ok; [apply handleSubmit_suspends_once | exact Hp].
  - now apply run_timers_ok.
Qed.

Lemma run_ok (evs : list Event) (w : World) : page_ok w -> page_ok (run evs w).
Proof.
  revert w. induction evs as [|ev evs IH]; intros w Hp; [exact Hp|].
  rewrite run_cons. now apply IH, step_ok.
Qed.

Lemma initial_ok : page_ok initial.
Proof. repeat split; constructor. Qed.

Lemma reachable_ok (evs : list Event) : page_ok (run evs initial).
Proof. apply run_ok, initial_ok. Qed.

Lemma one_auto (w : World) (a b : Timer) :
  timers_ok w -> In a (autos w) -> In b (autos w) -> a = b.
Proof.
  intros [Hok Hnd] Ha Hb. unfold autos in *.
  apply filter_In in Ha as [Ha Haa]. apply filter_In in Hb as [Hb Hbb].
  apply (same_id_same_timer (timers w)); try assumption.
  rewrite Forall_forall in Hok.
  destruct (Hok a Ha) as [_ Hta]. destruct (Hok b Hb) as [_ Htb].
  unfold is_auto in Haa, Hbb.
  destruct (task a); [|discriminate]. destruct (task b); [|discriminate].
  destruct Hta as [Hta _]. destruct Htb as [Htb _]. congruence.
Qed.

Lemma autos_shape (w : World) :
  page_ok w ->
  match toast w with
  | Some _ => exists a, autos w = [a] /\ toastTimer w = Some (timer_id a)
                        /\ (due a <= now w + 5000)%N
  | None => autos w = []
  end.
Proof.
  intros [Hok Ha]. unfold toast_armed in Ha. destruct (toast w); [|exact Ha].
  destruct Ha as (a & Hin & Hauto).
  assert (Haut : In a (autos w)) by (apply filter_In; now split).
  exists a. split; [|].
  - destruct (autos w) as [|x [|y rest]] eqn:E.
    + destruct Haut.
    + destruct Haut as [-> | []]. reflexivity.
    + exfalso.
      assert (Hxy : x = y)
        by (apply (one_auto w); [exact Hok | rewrite E; now left
                                | rewrite E; right; now left]).
      destruct Hok as [_ Hnd].
      apply (ids_filter is_auto) in Hnd.
      fold (autos w) in Hnd. rewrite E in Hnd. cbn [map] in Hnd.
      inversion Hnd as [|i l Hnin _]; subst. apply Hnin. now left.
  - destruct Hok as [Hok _]. rewrite Forall_forall in Hok.
    destruct (Hok a Hin) as [_ Ht]. unfold is_auto in Hauto.
    destruct (task a); [exact Ht | discriminate].
Qed.

(** X13. In every state that the page can reach, a visible notification
    has exactly one pending dismissal, the one whose id the mounted Toast
    holds, due at most 5000 ms from now; a hidden notification has none.
    So a dismissal that fires always belongs to the notification that is
    on the screen. *)
Theorem toast_has_one_timer (evs : list Event) :
  match toast (run evs initial) with
  | Some _ =>
      exists a, autos (run evs initial) = [a] /\
                toastTimer (run evs initial) = Some (timer_id a) /\
                (due a <= now (run evs initial) + 5000)%N
  | None => autos (run evs initial) = []
  end.
Proof. apply autos_shape, reachable_ok. Qed.

(** ** Deliveries resolve, notifications go *)

Section OldTimers.

(** A property of timers that every dismissal has: it survives whatever
    does not park a new continuation. *)
Variable P : Timer -> Prop.
Hypothesis P_auto : forall t, is_auto t = true -> P t.

Lemma keep_clearTimeout (id : nat) (w : World) :
  Forall P (timers w) -> Forall P (timers (clearTimeout id w)).
Proof.
  intros H. cbn [timers clearTimeout with_timers]. apply Forall_forall.
  intros t Ht. apply filter_In in Ht as [Ht _]. rewrite Forall_forall in H.
  now apply H.
Qed.

Lemma keep_render_Toast (w : World) :
  Forall P (timers w) -> Forall P (timers (render_Toast w)).
Proof.
  intros H. unfold render_Toast.
  set (w1 := match toastTimer w with
             | Some id => with_toastTimer None (clearTimeout id w)
             | None => w
             end).
  assert (H1 : Forall P (timers w1)).
  { subst w1. destruct (toastTimer w) as [id|]; [|exact H].
    exact (keep_clearTimeout id w H). }
  destruct (toast w1); [|exact H1].
  unfold setTimeout. cbn [fst snd timers with_toastTimer with_nextTimer with_timers].
  apply Forall_app. split; [exact H1|]. constructor; [|constructor].
  now apply P_auto.
Qed.

Lemma keep_render (w : World) :
  Forall P (timers w) -> Forall P (timers (render w)).
Proof.
  intros H. unfold render. apply keep_render_Toast.
  unfold render_DemoModal. destruct (isModalOpen w), (modal w); exact H.
Qed.

Lemma keep_exec (inst : nat) (e : Effect) (w : World) :
  Forall P (timers w) -> Forall P (timers (exec inst e w)).
Proof.
  intros H. destruct e; cbn [exec]; try exact H.
  - unfold update_modal. destruct (modal w) as [m|]; [|exact H].
    destruct (instance m =? inst)%nat; exact H.
  - unfold update_modal. destruct (modal w) as [m|]; [|exact H].
    destruct (instance m =? inst)%nat; exact H.
  - unfold setToast. destruct (toast w); exact (keep_render (with_toast _ w) H).
  - unfold setIsModalOpen. destruct (Bool.eqb (isModalOpen w) false);
      [exact H | exact (keep_render (with_isModalOpen false w) H)].
Qed.

Lemma keep_run_prog (inst : nat) (k : list Effect) (w : World) :
  delay_free k -> Forall P (timers w) ->
  Forall P (timers (run_prog inst k w)).
Proof.
  revert w. induction k as [|e k IH]; intros w Hk H; [exact H|].
  unfold delay_free in Hk. cbn [forallb] in Hk.
  apply andb_true_iff in Hk as [He Hk].
  destruct e; try discriminate He; cbn [run_prog];
    apply IH; try exact Hk; apply keep_exec; exact H.
Qed.

Lemma keep_fire (t : Timer) (w : World) :
  In t (timers w) -> page_ok w -> Forall P (timers w) ->
  Forall P (timers (fire t w)).
Proof.
  intros Hin [[Hok _] _] H. unfold fire.
  set (w1 := with_now _ (clearTimeout (timer_id t) w)).
  assert (H1 : Forall P (timers w1)) by exact (keep_clearTimeout (timer_id t) w H).
  rewrite Forall_forall in Hok. destruct (Hok t Hin) as [_ Ht].
  destruct (task t) as [|inst k].
  - unfold setToast. destruct (toast w1); [|exact H1].
    exact (keep_render (with_toast None w1) H1).
  - apply keep_run_prog; [tauto | exact H1].
Qed.

Lemma keep_run_timers (fuel : nat) (target : N) (w : World) :
  page_ok w -> Forall P (timers w) ->
  Forall P (timers (run_timers fuel target w)).
Proof.
  revert w. induction fuel as [|fuel IH]; intros w Hp H; cbn [run_timers];
    destruct (next_due target (timers w)) as [t|] eqn:E; try exact H.
  apply next_due_In in E as [Hin _].
  apply IH; [now apply fire_ok | now apply keep_fire].
Qed.

End OldTimers.

Lemma in_flight_nil (ts : list Timer) :
  Forall (fun t => is_auto t = true) ts ->
  filter (fun t => negb (is_auto t)) ts = [].
Proof.
  induction 1 as [|t ts Ht _ IH]; simpl; [reflexivity|]. now rewrite Ht.
Qed.

Lemma deliveries_resolve (ms : N) (w : World) :
  page_ok w -> (1500 <= ms)%N -> in_flight (step (Wait ms) w) = [].
Proof.
  intros Hp Hms. destruct (wait_settles ms w) as [Hset _].
  set (P := fun t => is_auto t = true \/ (due t <= now w + 1500)%N).
  assert (HP : Forall P (timers (step (Wait ms) w))).
  { apply keep_run_timers; [intros t Ht; now left | exact Hp |].
    destruct Hp as [[Hok _] _]. eapply Forall_impl; [|exact Hok].
    intros t [_ Ht]. unfold P, is_auto.
    destruct (task t); [now left | right; tauto]. }
  apply in_flight_nil. unfold settled in Hset.
  rewrite Forall_forall in *. intros t Ht.
  destruct (HP t Ht) as [Ha | Hdue]; [exact Ha|].
  specialize (Hset t Ht). lia.
Qed.

(** X14. Every delivery resolves within its 1500 ms: in whatever state
    the page is, once 1500 ms or more have passed without user input no
    continuation of handleSubmit is left waiting. *)
Theorem no_delivery_outlives_1500 (evs : list Event) (ms : N) :
  (1500 <= ms)%N ->
  in_flight (step (Wait ms) (run evs initial)) = [].
Proof. intros Hms. apply deliveries_resolve; [apply reachable_ok | exact Hms]. Qed.

Lemma no_delivery_outlives_1500_witness :
  let w := run [BookDemoClick; Input FName "Ada"; Input FEmail "test@ok.com";
                Input FOrganization "Orbis"; SubmitClick; Wait 600] initial in
  List.length (in_flight w) = 1 /\ in_flight (step (Wait 1500) w) = [].
Proof.
  intros w. split; [vm_compute; reflexivity|].
  apply (no_delivery_outlives_1500
           [BookDemoClick; Input FName "Ada"; Input FEmail "test@ok.com";
            Input FOrganization "Orbis"; SubmitClick; Wait 600] 1500).
  vm_compute. discriminate.
Defined.

Lemma all_autos (ts : list Timer) :
  filter (fun t => negb (is_auto t)) ts = [] ->
  Forall (fun t => is_auto t = true) ts.
Proof.
  induction ts as [|t ts IH]; simpl; [constructor|].
  destruct (is_auto t) eqn:E; simpl; [|discriminate].
  intros H. constructor; [exact E | now apply IH].
Qed.

Lemma no_timers (ts : list Timer) :
  filter is_auto ts = [] -> filter (fun t => negb (is_auto t)) ts = [] ->
  ts = [].
Proof.
  destruct ts as [|t ts]; simpl; [reflexivity|].
  destruct (is_auto t); simpl; discriminate.
Qed.

Lemma toast_fire_auto (t : Timer) (w : World) :
  is_auto t = true -> toast (fire t w) = None.
Proof.
  unfold is_auto, fire. destruct (task t); [intros _ | discriminate].
  set (w1 := with_now _ _). unfold setToast.
  destruct (toast w1) eqn:E; [|exact E].
  destruct (render_frame (with_toast None w1)) as (_ & _ & -> & _). reflexivity.
Qed.

Lemma rest_idle (fuel : nat) (target : N) (w : World) :
  timers w = [] -> toast w = None ->
  toast (run_timers fuel target w) = None /\
  timers (run_timers fuel target w) = [].
Proof.
  intros Ht Ho. destruct fuel; cbn [run_timers]; rewrite Ht; simpl; now split.
Qed.

Lemma comes_to_rest (ms : N) (w : World) :
  page_ok w -> in_flight w = [] -> (5000 <= ms)%N ->
  toast (step (Wait ms) w) = None /\ timers (step (Wait ms) w) = [].
Proof.
  intros Hp Hfl Hms. cbn [step].
  assert (Hall := all_autos _ Hfl).
  destruct (next_due (now w + ms) (timers w)) as [t|] eqn:E.
  - destruct (next_due_In _ _ _ E) as [Hin _].
    assert (Ha : is_auto t = true) by (rewrite Forall_forall in Hall; now apply Hall).
    pose proof (weight_fire t w Hin) as Hw.
    destruct (pending_weight w) as [|fuel]; [lia|].
    cbn [run_timers]. rewrite E.
    assert (Hp' := fire_ok t w Hin Hp).
    apply rest_idle; [|now apply toast_fire_auto].
    apply no_timers.
    + destruct Hp' as [_ Harm]. unfold toast_armed in Harm.
      now rewrite (toast_fire_auto t w Ha) in Harm.
    + apply in_flight_nil.
      apply keep_fire; [tauto | exact Hin | exact Hp | exact Hall].
  - assert (Hts : timers w = []).
    { apply next_due_None in E. destruct (timers w) as [|t ts] eqn:Et; [reflexivity|].
      exfalso. destruct Hp as [[Hok _] _]. rewrite Et in Hok.
      inversion Hok as [|? ? [_ Ht] _]; subst.
      inversion E as [|? ? Hd _]; subst.
      inversion Hall as [|? ? Hat _]; subst.
      unfold is_auto in Hat. destruct (task t); [|discriminate]. lia. }
    apply rest_idle; [exact Hts|].
    destruct Hp as [_ Harm]. unfold toast_armed in Harm.
    destruct (toast w); [|reflexivity].
    destruct Harm as (u & Hin & _). rewrite Hts in Hin. destruct Hin.
Qed.

(** X15. The page comes to rest: in whatever state it is, when the user
    leaves it alone for 1500 ms or more, and then for 5000 ms or more,
    no notification is shown and no timer is pending, neither a
    dismissal nor a delivery. *)
Theorem page_comes_to_rest (evs : list Event) (a b : N) :
  (1500 <= a)%N -> (5000 <= b)%N ->
  toast (run (evs ++ [Wait a; Wait b]) initial) = None /\
  timers (run (evs ++ [Wait a; Wait b]) initial) = [].
Proof.
  intros Ha Hb.
  replace (evs ++ [Wait a; Wait b]) with ((evs ++ [Wait a]) ++ [Wait b])
    by now rewrite <- app_assoc.
  rewrite run_snoc. apply comes_to_rest; [apply reachable_ok | | exact Hb].
  rewrite run_snoc. apply deliveries_resolve; [apply reachable_ok | exact Ha].
Qed.

Lemma page_comes_to_rest_witness :
  let evs := [BookDemoClick; Input FName "Ada"; Input FEmail "test@fail.com";
              Input FOrganization "Orbis"; SubmitClick; Wait 600] in
  List.length (timers (run evs initial)) = 1 /\
  toast (run (evs ++ [Wait 1500; Wait 5000]) initial) = None /\
  timers (run (evs ++ [Wait 1500; Wait 5000]) initial) = [].
Proof.
  intros evs. split; [vm_compute; reflexivity|].
  apply (page_comes_to_rest evs 1500 5000); vm_compute; discriminate.
Defined.

(** ** Addresses that validateEmail accepts *)

Lemma toLowerCase_app (a b : string) :
  Str.toLowerCase (a ++ b) = (Str.toLowerCase a ++ Str.toLowerCase b)%string.
Proof. induction a as [|c a IH]; simpl; [reflexivity | now rewrite IH]. Qed.

Lemma lower_atom_char (c : ascii) :
  is_atom_char c = true ->
  Re.class_has
    [Re.One "<"; Re.One ">"; Re.One "("; Re.One ")"; Re.One "[";
     Re.One "]"; Re.One "\"; Re.One "."; Re.One ","; Re.One ";";
     Re.One ":"; Re.Space; Re.One "@"; Re.One Email.dquote]%char
    (Str.lower_char c) = false.
Proof.
  destruct c as [b0 b1 b2 b3 b4 b5 b6 b7].
  destruct b0, b1, b2, b3, b4, b5, b6, b7; vm_compute; congruence.
Qed.

Lemma lower_label_char (c : ascii) :
  is_label_char c = true ->
  Re.class_has
    [Re.Range "a" "z"; Re.Range "A" "Z"; Re.One "-"; Re.Range "0" "9"]%char
    (Str.lower_char c) = true.
Proof.
  destruct c as [b0 b1 b2 b3 b4 b5 b6 b7].
  destruct b0, b1, b2, b3, b4, b5, b6, b7; vm_compute; congruence.
Qed.

Lemma lower_letter (c : ascii) :
  is_letter c = true ->
  Re.class_has [Re.Range "a" "z"; Re.Range "A" "Z"]%char (Str.lower_char c)
    = true.
Proof.
  destruct c as [b0 b1 b2 b3 b4 b5 b6 b7].
  destruct b0, b1, b2, b3, b4, b5, b6, b7; vm_compute; congruence.
Qed.

Section Runs.

(** Runs of characters of one class. *)
Variable p : ascii -> bool.
Variable r : Re.t.
Hypothesis one : forall c, p c = true -> Re.Matches r (String (Str.lower_char c) "").

Lemma star_run (s : string) :
  all_chars p s = true -> Re.Matches (Re.Star r) (Str.toLowerCase s).
Proof.
  induction s as [|c s IH]; simpl; [constructor|].
  intros H. apply andb_true_iff in H as [Hc Hs].
  change (String (Str.lower_char c) (Str.toLowerCase s))
    with (String (Str.lower_char c) "" ++ Str.toLowerCase s)%string.
  constructor; [now apply one | now apply IH].
Qed.

Lemma plus_run (s : string) :
  s <> "" -> all_chars p s = true ->
  Re.Matches (Re.plus r) (Str.toLowerCase s).
Proof.
  destruct s as [|c s]; [congruence|]. simpl. intros _ H.
  apply andb_true_iff in H as [Hc Hs].
  change (String (Str.lower_char c) (Str.toLowerCase s))
    with (String (Str.lower_char c) "" ++ Str.toLowerCase s)%string.
  constructor; [now apply one | now apply star_run].
Qed.

End Runs.

Lemma atom_run (s : string) :
  s <> "" -> all_chars is_atom_char s = true ->
  Re.Matches (Re.plus Email.atom_char) (Str.toLowerCase s).
Proof.
  apply plus_run. intros c Hc. constructor. now apply lower_atom_char.
Qed.

Lemma label_run (s : string) :
  s <> "" -> all_chars is_label_char s = true ->
  Re.Matches (Re.plus Email.label_char) (Str.toLowerCase s).
Proof.
  apply plus_run. intros c Hc. constructor. now apply lower_label_char.
Qed.

Lemma tld_run (s : string) :
  2 <= String.length s -> all_chars is_letter s = true ->
  Re.Matches (Re.at_least 2 Email.alpha) (Str.toLowerCase s).
Proof.
  destruct s as [|a [|b s]]; simpl; try lia. intros _ H.
  apply andb_true_iff in H as [Ha H]. apply andb_true_iff in H as [Hb Hs].
  change (String (Str.lower_char a) (String (Str.lower_char b) (Str.toLowerCase s)))
    with ((String (Str.lower_char a) "" ++ String (Str.lower_char b) "" ++ "")
          ++ Str.toLowerCase s)%string.
  unfold Re.at_least. constructor.
  - apply (Re.MSeq Email.alpha (Re.times 1 Email.alpha));
      [constructor; now apply lower_letter|].
    apply (Re.MSeq Email.alpha Re.Eps);
      [constructor; now apply lower_letter | constructor].
  - apply (star_run is_letter); [|exact Hs].
    intros c Hc. constructor. now apply lower_letter.
Qed.

Lemma atoms_match (rest : list string) :
  Forall (fun a => a <> "" /\ all_chars is_atom_char a = true) rest ->
  Re.Matches (Re.Star (Re.Seq (Re.Lit ".") (Re.plus Email.atom_char)))
    (Str.toLowerCase (fold_right (fun a s => "." ++ a ++ s)%string "" rest)).
Proof.
  induction 1 as [|a rest [Ha1 Ha2] _ IH]; simpl; [constructor|].
  rewrite toLowerCase_app.
  apply (Re.MStarS _ ("." ++ Str.toLowerCase a)%string
           (Str.toLowerCase (fold_right (fun a s => "." ++ a ++ s)%string "" rest)));
    [|exact IH].
  apply (Re.MSeq _ _ "."%string); [constructor | now apply atom_run].
Qed.

Lemma dotted_matches (first : string) (rest : list string) :
  Forall (fun a => a <> "" /\ all_chars is_atom_char a = true) (first :: rest) ->
  Re.Matches Email.dot_atom (Str.toLowerCase (dotted first rest)).
Proof.
  intros H. inversion H as [|? ? [Hf1 Hf2] Hrest]; subst.
  unfold dotted, Email.dot_atom. rewrite toLowerCase_app.
  constructor; [now apply atom_run | now apply atoms_match].
Qed.

Lemma labels_match (labels : list string) (tld : string) :
  Forall (fun h => h <> "" /\ all_chars is_label_char h = true) labels ->
  exists u,
    Re.Matches (Re.Star (Re.Seq (Re.plus Email.label_char) (Re.Lit "."))) u /\
    Str.toLowerCase (hostname_of labels tld) = (u ++ Str.toLowerCase tld)%string.
Proof.
  induction 1 as [|h labels [Hh1 Hh2] _ (u & Hu & E)]; simpl.
  - exists "". split; [constructor | reflexivity].
  - exists ((Str.toLowerCase h ++ ".") ++ u)%string. split.
    + constructor; [|exact Hu]. constructor; [now apply label_run | constructor].
    + rewrite toLowerCase_app. simpl. rewrite E.
      rewrite !sapp_assoc. reflexivity.
Qed.

Lemma hostname_matches (labels : list string) (tld : string) :
  labels <> [] ->
  Forall (fun h => h <> "" /\ all_chars is_label_char h = true) labels ->
  2 <= String.length tld -> all_chars is_letter tld = true ->
  Re.Matches Email.hostname (Str.toLowerCase (hostname_of labels tld)).
Proof.
  intros Hne Hl Hlen Htld. destruct labels as [|h labels]; [congruence|].
  inversion Hl as [|? ? [Hh1 Hh2] Hrest]; subst.
  destruct (labels_match labels tld Hrest) as (u & Hu & E).
  simpl. rewrite toLowerCase_app. simpl. rewrite E.
  replace (Str.toLowerCase h ++ String (Str.lower_char ".") (u ++ Str.toLowerCase tld))%string
    with (((Str.toLowerCase h ++ ".") ++ u) ++ Str.toLowerCase tld)%string
    by (rewrite !sapp_assoc; reflexivity).
  unfold Email.hostname. constructor; [|now apply tld_run].
  unfold Re.plus at 1. constructor; [|exact Hu].
  constructor; [now apply label_run | constructor].
Qed.

(** X16. validateEmail accepts the addresses that users ordinarily
    write, in either case: a local part of one or more atoms joined by
    dots, each a non-empty run of letters, digits, hyphen, underscore or
    plus; an at sign; and a host of one or more non-empty labels of
    letters, digits or hyphen, each followed by a dot, closed by a last
    label of two or more letters. *)
Theorem ordinary_address_accepted (first : string) (rest labels : list string)
    (tld : string) :
  Forall (fun a => a <> "" /\ all_chars is_atom_char a = true) (first :: rest) ->
  labels <> [] ->
  Forall (fun h => h <> "" /\ all_chars is_label_char h = true) labels ->
  2 <= String.length tld -> all_chars is_letter tld = true ->
  validateEmail (dotted first rest ++ "@" ++ hostname_of labels tld) = true.
Proof.
  intros Hl Hne Hh Hlen Htld. apply validateEmail_spec.
  rewrite toLowerCase_app. unfold Email.re. constructor.
  - apply Re.MAltL. now apply dotted_matches.
  - change (Str.toLowerCase ("@" ++ hostname_of labels tld))
      with ("@" ++ Str.toLowerCase (hostname_of labels tld))%string.
    constructor; [constructor|]. apply Re.MAltR. now apply hostname_matches.
Qed.

Lemma ordinary_address_accepted_witness :
  (dotted "Ada" ["Lovelace"; "w+1"] ++ "@" ++ hostname_of ["mail"; "Orbis-Data"] "io"
     = "Ada.Lovelace.w+1@mail.Orbis-Data.io")%string /\
  validateEmail "Ada.Lovelace.w+1@mail.Orbis-Data.io" = true.
Proof.
  split; [reflexivity|].
  apply (ordinary_address_accepted "Ada" ["Lovelace"; "w+1"] ["mail"; "Orbis-Data"] "io").
  - repeat constructor; discriminate.
  - discriminate.
  - repeat constructor; discriminate.
  - simpl. lia.
  - reflexivity.
Defined.

(** X17. Whatever validateEmail accepts is a non-empty local part, an at
    sign, and a rest that contains a dot; an address without an at sign
    is never accepted. *)
Theorem accepted_address_shape (e : string) :
  (validateEmail e = true ->
   exists l d, e = (l ++ String "@" d)%string /\ l <> "" /\ Str.Substring "." d) /\
  (~ Str.Substring "@" e -> validateEmail e = false).
Proof. split; [apply validateEmail_shape | apply validateEmail_needs_at]. Qed.
